(** * SynapseChess: the session controller of [gui.py]

    A shallow embedding of the chess clock, the scrollable move log, the
    play modes and the [ChessGUI] controller with its background engine
    thread, followed by the properties of the design document that can be
    settled on that code.

    Conventions.
    - Python [int] is [Z]; [//] is [Z.div] (floor division).
    - [time.time()] returns a [float]; times and durations are modelled as
      rationals [Q], so rounding is idealised away.  Only order properties
      of durations are proved.
    - [chess.WHITE] is [True] and [chess.BLACK] is [False], as in
      python-chess: a colour is a [bool]. *)

From Stdlib Require Import ZArith QArith Qround List String Bool Lia Lqa.
Import ListNotations.

Open Scope Z_scope.

(** ** Configuration constants *)

Definition SQUARE_SIZE : Z := 80.
Definition BOARD_SIZE : Z := 8 * SQUARE_SIZE.
Definition START_TIME : Z := 300.

Definition Color := bool.
Definition WHITE : Color := true.
Definition BLACK : Color := false.

(** ** [class Clock] *)

Module Clock.

(** [self.remaining] is a dict with exactly the two keys [chess.WHITE] and
    [chess.BLACK]; it is kept as two fields. *)
Record t := mk {
  remaining_white : Q;
  remaining_black : Q;
  last_tick : Q
}.

Definition remaining (c : t) (side : Color) : Q :=
  if side then remaining_white c else remaining_black c.

Definition set_remaining (c : t) (side : Color) (v : Q) : t :=
  if side then mk v (remaining_black c) (last_tick c)
  else mk (remaining_white c) v (last_tick c).

(** [__init__(self, start_sec)], reading [time.time()] as [now]. *)
Definition init (start_sec : Z) (now : Q) : t :=
  mk (inject_Z start_sec) (inject_Z start_sec) now.

Definition start_turn (c : t) (now : Q) : t :=
  mk (remaining_white c) (remaining_black c) now.

(** [self.remaining[side_to_move] -= now - self.last_tick] *)
Definition stop_turn (c : t) (side_to_move : Color) (now : Q) : t :=
  set_remaining c side_to_move
    (remaining c side_to_move - (now - last_tick c))%Q.

(** [any(t <= 0 for t in self.remaining.values())] *)
Definition flag (c : t) : bool :=
  Qle_bool (remaining_white c) 0 || Qle_bool (remaining_black c) 0.

(** Python's [int(x)] on a float truncates towards zero. *)
Definition int (x : Q) : Z := Z.quot (Qnum x) (Z.pos (Qden x)).

(** The seconds shown by [draw]: [secs = max(0, int(self.remaining[side]))]. *)
Definition draw_secs (c : t) (side : Color) : Z :=
  Z.max 0 (int (remaining c side)).

(** A sequence of calls on one [Clock] instance, each with the value
    [time.time()] returns inside it. *)
Inductive op :=
| StartTurn (now : Q)
| StopTurn (side : Color) (now : Q).

Definition op_time (o : op) : Q :=
  match o with StartTurn now => now | StopTurn _ now => now end.

Definition apply (c : t) (o : op) : t :=
  match o with
  | StartTurn now => start_turn c now
  | StopTurn side now => stop_turn c side now
  end.

Definition run (c : t) (ops : list op) : t := fold_left apply ops c.

(** The readings of the wall clock never go backwards along [ops],
    starting from [t0]. *)
Fixpoint chronological (t0 : Q) (ops : list op) : Prop :=
  match ops with
  | [] => True
  | o :: rest => (t0 <= op_time o)%Q /\ chronological (op_time o) rest
  end.

(** A turn is [start_turn()] at [t0] followed by [stop_turn(side)] at [t1],
    the way [make_move] brackets the thinking time of the side to move. *)
Definition turn_ops (turns : list (Color * Q * Q)) : list op :=
  flat_map (fun '(side, t0, t1) => [StartTurn t0; StopTurn side t1]) turns.

(** The thinking time of [side] summed over [turns]. *)
Fixpoint charged (side : Color) (turns : list (Color * Q * Q)) : Q :=
  match turns with
  | [] => 0
  | (s, t0, t1) :: rest =>
      ((if Bool.eqb s side then t1 - t0 else 0) + charged side rest)%Q
  end.

(** [time.strftime("%M:%S", time.gmtime(secs))] in [draw]: the minute and
    second fields of the time shown. *)
Definition draw_min_sec (c : t) (side : Color) : Z * Z :=
  let secs := draw_secs c side in
  ((secs / 60) mod 60, secs mod 60).

End Clock.

(** ** [class ScrollableMoveLog] *)

Module ScrollableMoveLog.

(** [pygame.Rect(x, y, width, height)] and its [collidepoint]: a point on
    the right or bottom edge is outside. *)
Record Rect := mkRect { rect_x : Z; rect_y : Z; rect_w : Z; rect_h : Z }.

Definition collidepoint (r : Rect) (p : Z * Z) : bool :=
  (rect_x r <=? fst p) && (fst p <? rect_x r + rect_w r) &&
  (rect_y r <=? snd p) && (snd p <? rect_y r + rect_h r).

(** One row [[number, white_san, black_san]] of [self.moves]. *)
Record entry := mkEntry { number : Z; white : string; black : string }.

Record t := mk {
  rect : Rect;
  moves : list entry;
  current_move_number : Z;
  waiting_for_black : bool;
  line_height : Z;
  visible_lines : Z;
  scroll_y : Z;
  max_scroll : Z
}.

Definition init (x y width height : Z) : t :=
  mk (mkRect x y width height) [] 1 false 18 ((height - 60) / 18) 0 0.

(** [self.moves[-1][2] = san] *)
Fixpoint set_last_black (l : list entry) (san : string) : list entry :=
  match l with
  | [] => []
  | [e] => [mkEntry (number e) (white e) san]
  | e :: rest => e :: set_last_black rest san
  end.

Definition is_empty (l : list entry) : bool :=
  match l with [] => true | _ => false end.

Definition _update_scroll_limits (g : t) : t :=
  let total := Z.of_nat (List.length (moves g)) in
  let max_scroll' :=
    if visible_lines g <? total
    then (total - visible_lines g) * line_height g
    else 0 in
  mk (rect g) (moves g) (current_move_number g) (waiting_for_black g)
     (line_height g) (visible_lines g)
     (Z.max 0 (Z.min (scroll_y g) max_scroll')) max_scroll'.

Definition _auto_scroll_to_bottom (g : t) : t :=
  mk (rect g) (moves g) (current_move_number g) (waiting_for_black g)
     (line_height g) (visible_lines g) (max_scroll g) (max_scroll g).

Definition add_move (g : t) (san : string) (is_white : bool) : t :=
  let g1 :=
    if is_white then
      mk (rect g)
         (moves g ++ [mkEntry (current_move_number g) san EmptyString])
         (current_move_number g) true
         (line_height g) (visible_lines g) (scroll_y g) (max_scroll g)
    else if waiting_for_black g && negb (is_empty (moves g)) then
      mk (rect g) (set_last_black (moves g) san)
         (current_move_number g + 1) false
         (line_height g) (visible_lines g) (scroll_y g) (max_scroll g)
    else
      mk (rect g)
         (moves g ++ [mkEntry (current_move_number g) EmptyString san])
         (current_move_number g + 1) (waiting_for_black g)
         (line_height g) (visible_lines g) (scroll_y g) (max_scroll g) in
  _auto_scroll_to_bottom (_update_scroll_limits g1).

Definition clear (g : t) : t :=
  mk (rect g) [] 1 false (line_height g) (visible_lines g) 0 0.

(** [handle_mouse_wheel(self, e)]: [ey] is [e.y], [mouse] is
    [pygame.mouse.get_pos()].  Returns the log and the boolean result. *)
Definition handle_mouse_wheel (g : t) (ey : Z) (mouse : Z * Z) : t * bool :=
  if collidepoint (rect g) mouse then
    let amt := ey * line_height g * 3 in
    (mk (rect g) (moves g) (current_move_number g) (waiting_for_black g)
        (line_height g) (visible_lines g)
        (Z.max 0 (Z.min (scroll_y g - amt) (max_scroll g))) (max_scroll g),
     true)
  else (g, false).

(** The operations the rest of the program performs on a log. *)
Inductive op :=
| AddMove (san : string) (is_white : bool)
| Clear
| MouseWheel (ey : Z) (mouse : Z * Z).

Definition apply (g : t) (o : op) : t :=
  match o with
  | AddMove san w => add_move g san w
  | Clear => clear g
  | MouseWheel ey mouse => fst (handle_mouse_wheel g ey mouse)
  end.

Definition run (g : t) (ops : list op) : t := fold_left apply ops g.

(** The bound the design document names: [max(0, total - visible) * line_height]. *)
Definition scroll_limit (g : t) : Z :=
  Z.max 0 (Z.of_nat (List.length (moves g)) - visible_lines g) * line_height g.

(** What every log built by the program satisfies. *)
Definition scroll_inv (g : t) : Prop :=
  line_height g = 18 /\
  0 <= scroll_y g <= max_scroll g /\
  max_scroll g <= scroll_limit g.

(** [range(start, stop)] *)
Definition range (start stop : Z) : list Z :=
  map (fun k => start + Z.of_nat k) (seq 0 (Z.to_nat (stop - start))).

(** [l[i]] on a Python list: negative indices count from the end, [None]
    stands for [IndexError]. *)
Definition getitem (l : list entry) (i : Z) : option entry :=
  let n := Z.of_nat (List.length l) in
  if 0 <=? i then nth_error l (Z.to_nat i)
  else if 0 <=? n + i then nth_error l (Z.to_nat (n + i))
  else None.

(** The rows [draw] renders, each with the [y] it is blitted at, in order;
    [None] if [self.moves[i]] raises.  The move area is
    [Rect(rect.x, rect.y + 50, width - 5, rect.height - 50)]. *)
Fixpoint draw_loop (g : t) (start y0 area_y area_bottom : Z) (idx : list Z)
  : option (list (entry * Z)) :=
  match idx with
  | [] => Some []
  | i :: rest =>
      match getitem (moves g) i with
      | None => None
      | Some e =>
          let y := y0 + (i - start) * line_height g in
          match draw_loop g start y0 area_y area_bottom rest with
          | None => None
          | Some rows =>
              Some (if (area_y <=? y) && (y <? area_bottom)
                    then (e, y) :: rows else rows)
          end
      end
  end.

Definition draw_rows (g : t) : option (list (entry * Z)) :=
  let area_y := rect_y (rect g) + 50 in
  let area_bottom := area_y + (rect_h (rect g) - 50) in
  let start := scroll_y g / line_height g in
  let stop := Z.min (Z.of_nat (List.length (moves g)))
                    (start + visible_lines g + 2) in
  let y0 := area_y - scroll_y g mod line_height g in
  draw_loop g start y0 area_y area_bottom (range start stop).

(** [add_move] for each notation of [sans] in turn, the colours
    alternating from [is_white]. *)
Fixpoint add_all (g : t) (sans : list string) (is_white : bool) : t :=
  match sans with
  | [] => g
  | s :: rest => add_all (add_move g s is_white) rest (negb is_white)
  end.

(** Notations grouped two by two into rows numbered from [n]. *)
Fixpoint rows_of (n : Z) (sans : list string) : list entry :=
  match sans with
  | [] => []
  | [w] => [mkEntry n w EmptyString]
  | w :: b :: rest => mkEntry n w b :: rows_of (n + 1) rest
  end.

(** Rows numbered 1, 2, ... in order, the counter one past the last
    complete row, and a half-filled last row exactly when Black is
    awaited. *)
Definition well_numbered (g : t) : Prop :=
  map number (moves g)
  = map (fun k => Z.of_nat k + 1) (seq 0 (List.length (moves g))) /\
  current_move_number g
  = Z.of_nat (List.length (moves g)) + (if waiting_for_black g then 0 else 1) /\
  (waiting_for_black g = true -> moves g <> []).

(** The geometry and the line metrics never change. *)
Definition same_frame (g0 g : t) : Prop :=
  rect g = rect g0 /\ line_height g = line_height g0 /\
  visible_lines g = visible_lines g0.

End ScrollableMoveLog.

(** ** The rules collaborator (python-chess)

    [gui.py] imports the [chess] package; the board, its legal moves and its
    notation are not part of the program.  Squares, pieces and moves are the
    plain data python-chess uses; everything that depends on the rules of
    chess is a field of the interface [Rules]. *)

Inductive PieceType := PAWN | KNIGHT | BISHOP | ROOK | QUEEN | KING.

Record Piece := mkPiece { piece_type : PieceType; color : Color }.

(** [chess.Move(from_square, to_square, promotion=None)] *)
Record Move := mkMove {
  from_square : Z;
  to_square : Z;
  promotion : option PieceType
}.

(** [chess.square(file, rank)], [chess.square_rank], [chess.square_file]. *)
Definition square (file rank : Z) : Z := rank * 8 + file.
Definition square_rank (sq : Z) : Z := Z.shiftr sq 3.
Definition square_file (sq : Z) : Z := Z.land sq 7.

(** python-chess looks a square up in [BB_SQUARES], a Python list of 64
    masks: an index from -64 to 63 is accepted (a negative one counts from
    the end), any other raises [IndexError]. *)
Definition square_in_table (sq : Z) : bool := (-64 <=? sq) && (sq <? 64).

Definition PieceType_eqb (a b : PieceType) : bool :=
  match a, b with
  | PAWN, PAWN | KNIGHT, KNIGHT | BISHOP, BISHOP
  | ROOK, ROOK | QUEEN, QUEEN | KING, KING => true
  | _, _ => false
  end.

Definition promotion_eqb (a b : option PieceType) : bool :=
  match a, b with
  | None, None => true
  | Some x, Some y => PieceType_eqb x y
  | _, _ => false
  end.

(** [Move.__eq__]: field-wise equality. *)
Definition Move_eqb (a b : Move) : bool :=
  (from_square a =? from_square b) && (to_square a =? to_square b) &&
  promotion_eqb (promotion a) (promotion b).

(** [Move.__bool__]: only the null move [Move(0, 0)] is falsy. *)
Definition Move_bool (m : Move) : bool :=
  negb (from_square m =? 0) || negb (to_square m =? 0) ||
  match promotion m with Some _ => true | None => false end.

Definition with_promotion (m : Move) (p : PieceType) : Move :=
  mkMove (from_square m) (to_square m) (Some p).

Class Rules (Board : Type) := {
  (** the position of [chess.Board()], which [board.reset()] restores *)
  starting_position : Board;
  turn : Board -> Color;
  (** [board.piece_at(sq)], for the squares the library accepts
      ([square_in_table]); callers check the index first *)
  piece_at : Board -> Z -> option Piece;
  (** [board.legal_moves], enumerated *)
  legal_moves : Board -> list Move;
  (** [board.push(move)]: no legality check is made by the library *)
  push : Board -> Move -> Board;
  san : Board -> Move -> string;
  is_game_over : Board -> bool
}.

(** [mv in board.legal_moves] *)
Definition is_legal {Board : Type} `{Rules Board} (b : Board) (mv : Move) : bool :=
  existsb (Move_eqb mv) (legal_moves b).

(** The test of [make_move] that triggers the default promotion. *)
Definition promotion_defaulted {Board : Type} `{Rules Board}
  (b : Board) (move : Move) : bool :=
  match piece_at b (from_square move) with
  | Some p =>
      PieceType_eqb (piece_type p) PAWN &&
      ((square_rank (to_square move) =? 0) || (square_rank (to_square move) =? 7)) &&
      match promotion move with None => true | Some _ => false end
  | None => false
  end.

(** What the program relies on from python-chess: a legal move starts on an
    occupied square, and a pawn move to the first or last rank is legal only
    with its promotion piece set ([Board.is_pseudo_legal] compares a pawn
    move with the generated ones, which all carry the promotion). *)
Record RulesSpec {Board : Type} `{Rules Board} : Prop := {
  legal_from_occupied :
    forall b m, In m (legal_moves b) -> piece_at b (from_square m) <> None;
  legal_promotion_set :
    forall b m, In m (legal_moves b) -> promotion_defaulted b m = false
}.
Arguments RulesSpec {Board} _.

(** Two more facts of python-chess the move log depends on: White moves
    first, and [push] passes the turn, whatever the move. *)
Record TurnSpec {Board : Type} `{Rules Board} : Prop := {
  turn_starting : turn starting_position = WHITE;
  turn_push : forall b m, turn (push b m) = negb (turn b)
}.
Arguments TurnSpec {Board} _.

(** Successive readings of [time.time()] do not go backwards. *)
Definition nondecreasing (wall : nat -> Q) : Prop :=
  forall k, (wall k <= wall (S k))%Q.

(** ** [class Mode] *)

Inductive Mode :=
| HUMAN_VS_HUMAN | HUMAN_VS_ENGINE | ENGINE_VS_HUMAN | ENGINE_VS_ENGINE | ANALYSIS.

(** [list(Mode)], in declaration order. *)
Definition modes : list Mode :=
  [HUMAN_VS_HUMAN; HUMAN_VS_ENGINE; ENGINE_VS_HUMAN; ENGINE_VS_ENGINE; ANALYSIS].

Definition Mode_eqb (a b : Mode) : bool :=
  match a, b with
  | HUMAN_VS_HUMAN, HUMAN_VS_HUMAN | HUMAN_VS_ENGINE, HUMAN_VS_ENGINE
  | ENGINE_VS_HUMAN, ENGINE_VS_HUMAN | ENGINE_VS_ENGINE, ENGINE_VS_ENGINE
  | ANALYSIS, ANALYSIS => true
  | _, _ => false
  end.

(** [modes.index(m)] *)
Fixpoint index (l : list Mode) (m : Mode) : nat :=
  match l with
  | [] => 0
  | x :: rest => if Mode_eqb x m then 0 else S (index rest m)
  end.

(** [modes[(modes.index(mode) + 1) % len(modes)]] *)
Definition next_mode (m : Mode) : Mode :=
  nth ((index modes m + 1) mod List.length modes) modes HUMAN_VS_HUMAN.

(** ** [class ChessGUI]

    The controller runs a main loop ([launch]) and at most one live
    background thread ([engine_thread], target [engine_calculate]).  Both
    share the attributes of [self]; in particular [self.board] is one
    object, mutated in place by [push] and [reset], and the thread is handed
    this very object.

    The thread is followed through its three observable steps:
    - [Started]: [Thread.start()] has returned, [best_move(self.board)] has
      not yet handed the position to the engine;
    - [Thinking b]: the engine has been given the position [b] it found in
      [self.board] and is searching;
    - [Exiting]: [self.pending_engine_move] has been assigned, the thread is
      still alive.
    Handlers of the main loop are taken as atomic with respect to these
    steps.  Sound playback and drawing do not change any attribute modelled
    here and are left out; [pygame.time.wait] only lets time pass. *)

Module ChessGUI.
Section Controller.

Context {Board : Type} {R : Rules Board}.
(** [self.engine.engine] is not [None]: the engine process started. *)
Variable engine_ok : bool.
(** The move [engine.play(board, limit)] answers for a position, [None]
    when the call raises. *)
Variable play : Board -> option Move.
(** [wall k] is the value of the [k]-th call of [time.time()]. *)
Variable wall : nat -> Q.

Inductive Worker :=
| Started
| Thinking (b : Board)
| Exiting.

Record t := mk {
  board : Board;
  mode : Mode;
  game_clock : Clock.t;
  move_log : ScrollableMoveLog.t;
  selected_sq : option Z;
  valid_dest_sqs : list Z;
  last_move : option Move;
  running : bool;
  audio_enabled : bool;
  (** [None]: no thread, or a thread that is no longer alive *)
  engine_thread : option Worker;
  pending_engine_move : option Move;
  (** number of [time.time()] calls made so far *)
  reads : nat
}.

Definition set_board (s : t) (b : Board) : t :=
  mk b (mode s) (game_clock s) (move_log s) (selected_sq s) (valid_dest_sqs s)
     (last_move s) (running s) (audio_enabled s) (engine_thread s)
     (pending_engine_move s) (reads s).
Definition set_mode (s : t) (m : Mode) : t :=
  mk (board s) m (game_clock s) (move_log s) (selected_sq s) (valid_dest_sqs s)
     (last_move s) (running s) (audio_enabled s) (engine_thread s)
     (pending_engine_move s) (reads s).
Definition set_game_clock (s : t) (c : Clock.t) : t :=
  mk (board s) (mode s) c (move_log s) (selected_sq s) (valid_dest_sqs s)
     (last_move s) (running s) (audio_enabled s) (engine_thread s)
     (pending_engine_move s) (reads s).
Definition set_move_log (s : t) (l : ScrollableMoveLog.t) : t :=
  mk (board s) (mode s) (game_clock s) l (selected_sq s) (valid_dest_sqs s)
     (last_move s) (running s) (audio_enabled s) (engine_thread s)
     (pending_engine_move s) (reads s).
Definition set_selection (s : t) (sq : option Z) (dests : list Z) : t :=
  mk (board s) (mode s) (game_clock s) (move_log s) sq dests
     (last_move s) (running s) (audio_enabled s) (engine_thread s)
     (pending_engine_move s) (reads s).
Definition set_last_move (s : t) (m : option Move) : t :=
  mk (board s) (mode s) (game_clock s) (move_log s) (selected_sq s)
     (valid_dest_sqs s) m (running s) (audio_enabled s) (engine_thread s)
     (pending_engine_move s) (reads s).
Definition set_running (s : t) (b : bool) : t :=
  mk (board s) (mode s) (game_clock s) (move_log s) (selected_sq s)
     (valid_dest_sqs s) (last_move s) b (audio_enabled s) (engine_thread s)
     (pending_engine_move s) (reads s).
Definition set_audio_enabled (s : t) (b : bool) : t :=
  mk (board s) (mode s) (game_clock s) (move_log s) (selected_sq s)
     (valid_dest_sqs s) (last_move s) (running s) b (engine_thread s)
     (pending_engine_move s) (reads s).
Definition set_engine_thread (s : t) (w : option Worker) : t :=
  mk (board s) (mode s) (game_clock s) (move_log s) (selected_sq s)
     (valid_dest_sqs s) (last_move s) (running s) (audio_enabled s) w
     (pending_engine_move s) (reads s).
Definition set_pending_engine_move (s : t) (m : option Move) : t :=
  mk (board s) (mode s) (game_clock s) (move_log s) (selected_sq s)
     (valid_dest_sqs s) (last_move s) (running s) (audio_enabled s)
     (engine_thread s) m (reads s).

(** [time.time()]: the next reading of the wall clock. *)
Definition time_time (s : t) : Q * t :=
  (wall (reads s),
   mk (board s) (mode s) (game_clock s) (move_log s) (selected_sq s)
      (valid_dest_sqs s) (last_move s) (running s) (audio_enabled s)
      (engine_thread s) (pending_engine_move s) (S (reads s))).

(** [self.game_clock = Clock()] *)
Definition new_clock (s : t) : t :=
  let (now, s) := time_time s in
  set_game_clock s (Clock.init START_TIME now).

(** [self.game_clock.start_turn()] *)
Definition clock_start_turn (s : t) : t :=
  let (now, s) := time_time s in
  set_game_clock s (Clock.start_turn (game_clock s) now).

(** [self.game_clock.stop_turn(side)] *)
Definition clock_stop_turn (s : t) (side : Color) : t :=
  let (now, s) := time_time s in
  set_game_clock s (Clock.stop_turn (game_clock s) side now).

(** [UCIEngine.best_move(board)] *)
Definition best_move (b : Board) : option Move :=
  if negb engine_ok then None else play b.

Definition engine_to_move (side : Color) (m : Mode) : bool :=
  (Bool.eqb side WHITE &&
     (Mode_eqb m ENGINE_VS_HUMAN || Mode_eqb m ENGINE_VS_ENGINE)) ||
  (Bool.eqb side BLACK &&
     (Mode_eqb m HUMAN_VS_ENGINE || Mode_eqb m ENGINE_VS_ENGINE)).

Definition maybe_start_engine_think (s : t) : t :=
  if negb engine_ok then s
  else match engine_thread s with
  | Some _ => s                       (* the thread [is_alive()] *)
  | None =>
      if is_game_over (board s) then s
      else if engine_to_move (turn (board s)) (mode s)
      then set_engine_thread s (Some Started)
      else s
  end.

(** [stop_engine]: only the pending slot is cleared. *)
Definition stop_engine (s : t) : t := set_pending_engine_move s None.

Definition change_mode (s : t) : t :=
  let s := stop_engine s in
  let s := set_mode s (next_mode (mode s)) in
  let s := set_board s starting_position in
  let s := set_selection s None [] in
  let s := set_last_move s None in
  let s := set_pending_engine_move s None in
  let s := new_clock s in
  let s := clock_start_turn s in
  let s := set_move_log s (ScrollableMoveLog.clear (move_log s)) in
  maybe_start_engine_think s.

Definition new_game (s : t) : t :=
  let s := stop_engine s in
  let s := set_board s starting_position in
  let s := set_selection s None [] in
  let s := set_pending_engine_move s None in
  let s := new_clock s in
  let s := set_move_log s (ScrollableMoveLog.clear (move_log s)) in
  let s := set_last_move s None in
  let s := clock_start_turn s in
  maybe_start_engine_think s.

(** A handler either returns or lets an exception escape, which ends
    [launch]. *)
Inductive outcome :=
| Ok (s : t)
| Raised.

(** [make_move(self, move)].  [board.san] and
    [board.piece_at(move.from_square).piece_type] both fail when the
    origin square is empty; that is the only exception of the body. *)
Definition make_move (s : t) (move : Move) : outcome :=
  let s := clock_stop_turn s (turn (board s)) in
  let san0 := san (board s) move in
  let is_white := Bool.eqb (turn (board s)) WHITE in
  match piece_at (board s) (from_square move) with
  | None => Raised
  | Some _ =>
      let move' :=
        if promotion_defaulted (board s) move
        then with_promotion move QUEEN else move in
      let san1 :=
        if promotion_defaulted (board s) move
        then san (board s) move' else san0 in
      let s := set_board s (push (board s) move') in
      let s := set_last_move s (Some move') in
      let s := set_move_log s (ScrollableMoveLog.add_move (move_log s) san1 is_white) in
      let s := if Mode_eqb (mode s) ANALYSIS then s else clock_start_turn s in
      let s := set_selection s None [] in
      Ok (maybe_start_engine_think s)
  end.

(** The square under a click at pixel [(x, y)]. *)
Definition clicked_square (pos : Z * Z) : Z :=
  square (fst pos / SQUARE_SIZE) (7 - snd pos / SQUARE_SIZE).

Definition may_select (s : t) (piece : Piece) : bool :=
  (Bool.eqb (turn (board s)) WHITE && Bool.eqb (color piece) WHITE &&
     (Mode_eqb (mode s) HUMAN_VS_HUMAN || Mode_eqb (mode s) HUMAN_VS_ENGINE)) ||
  (Bool.eqb (turn (board s)) BLACK && Bool.eqb (color piece) BLACK &&
     (Mode_eqb (mode s) HUMAN_VS_HUMAN || Mode_eqb (mode s) ENGINE_VS_HUMAN)) ||
  Mode_eqb (mode s) ANALYSIS.

(** [on_click(self, pos)].  Only upper bounds are tested on the pixel;
    [self.board.piece_at(sq)] is evaluated before the selection is looked
    at, and raises [IndexError] when [sq] is outside the library's table,
    as for a click above the window. *)
Definition on_click (s : t) (pos : Z * Z) : outcome :=
  if Mode_eqb (mode s) ENGINE_VS_ENGINE then Ok s
  else if (BOARD_SIZE <=? fst pos) || (BOARD_SIZE <=? snd pos) then Ok s
  else
    let sq := clicked_square pos in
    if negb (square_in_table sq) then Raised
    else
    match selected_sq s with
    | None =>
        match piece_at (board s) sq with
        | Some piece =>
            if may_select s piece then
              Ok (set_selection s (Some sq)
                    (map to_square
                       (filter (fun m => from_square m =? sq)
                               (legal_moves (board s)))))
            else Ok s
        | None => Ok s
        end
    | Some sel =>
        let mv := mkMove sel sq None in
        if is_legal (board s) mv then make_move s mv
        else Ok (set_selection s None [])
    end.

(** The move that [on_click] passes to [make_move], if the click gets that
    far: not in engine-versus-engine mode, inside the board, on a square the
    library accepts, with a square already selected, and the
    [mv in self.board.legal_moves] test passed. *)
Definition submitted_move (s : t) (pos : Z * Z) : option Move :=
  if Mode_eqb (mode s) ENGINE_VS_ENGINE then None
  else if (BOARD_SIZE <=? fst pos) || (BOARD_SIZE <=? snd pos) then None
  else if negb (square_in_table (clicked_square pos)) then None
  else
    match selected_sq s with
    | None => None
    | Some sel =>
        let mv := mkMove sel (clicked_square pos) None in
        if is_legal (board s) mv then Some mv else None
    end.

(** [handle_engine]: a pending move is applied as it is. *)
Definition handle_engine (s : t) : outcome :=
  match pending_engine_move s with
  | Some m =>
      if Move_bool m then
        match make_move s m with
        | Ok s' => Ok (set_pending_engine_move s' None)
        | Raised => Raised
        end
      else Ok s
  | None => Ok s
  end.

(** The events [handle_events] reacts to. *)
Inductive Key := K_n | K_SPACE | K_m | K_ESCAPE | K_other.

Inductive Event :=
| QUIT
| KEYDOWN (key : Key)
| MOUSEWHEEL (ey : Z) (mouse : Z * Z)
| MOUSEBUTTONDOWN (button : Z) (pos : Z * Z).

Definition audio_btn_rect : ScrollableMoveLog.Rect :=
  ScrollableMoveLog.mkRect (BOARD_SIZE + 20) 130 160 28.

(** The body of the [for e in pygame.event.get()] loop. *)
Definition handle_event (s : t) (e : Event) : outcome :=
  match e with
  | QUIT => Ok (set_running s false)
  | KEYDOWN K_n => Ok (new_game s)
  | KEYDOWN K_SPACE => Ok (change_mode s)
  | KEYDOWN K_m => Ok (set_audio_enabled s (negb (audio_enabled s)))
  | KEYDOWN K_ESCAPE => Ok (set_selection s None [])
  | KEYDOWN K_other => Ok s
  | MOUSEWHEEL ey mouse =>
      Ok (set_move_log s
            (fst (ScrollableMoveLog.handle_mouse_wheel (move_log s) ey mouse)))
  | MOUSEBUTTONDOWN button pos =>
      if button =? 1 then
        if ScrollableMoveLog.collidepoint audio_btn_rect pos
        then Ok (set_audio_enabled s (negb (audio_enabled s)))
        else on_click s pos
      else Ok s
  end.

(** [engine_calculate], step by step. *)
Definition worker_read (s : t) : t :=
  match engine_thread s with
  | Some Started => set_engine_thread s (Some (Thinking (board s)))
  | _ => s
  end.

Definition worker_write (s : t) : t :=
  match engine_thread s with
  | Some (Thinking b) =>
      set_engine_thread (set_pending_engine_move s (best_move b)) (Some Exiting)
  | _ => s
  end.

Definition worker_exit (s : t) : t :=
  match engine_thread s with
  | Some Exiting => set_engine_thread s None
  | _ => s
  end.

(** One atomic step of the program: an input event, the [handle_engine]
    call of a loop iteration, or a step of the background thread. *)
Inductive Action :=
| Input (e : Event)
| Tick
| WorkerRead
| WorkerWrite
| WorkerExit.

Definition step (s : t) (a : Action) : outcome :=
  match a with
  | Input e => handle_event s e
  | Tick => handle_engine s
  | WorkerRead => Ok (worker_read s)
  | WorkerWrite => Ok (worker_write s)
  | WorkerExit => Ok (worker_exit s)
  end.

Fixpoint run (s : t) (trace : list Action) : outcome :=
  match trace with
  | [] => Ok s
  | a :: rest =>
      match step s a with
      | Ok s' => run s' rest
      | Raised => Raised
      end
  end.

(** [__init__]: mode H-E, a fresh board, clock started. *)
Definition init : t :=
  let s := mk starting_position HUMAN_VS_ENGINE
              (Clock.init START_TIME (wall 0))
              (ScrollableMoveLog.init (BOARD_SIZE + 20) 180 180 280)
              None [] None true true None None 1 in
  let s := clock_start_turn s in
  maybe_start_engine_think s.

Definition reachable (s : t) : Prop := exists trace, run init trace = Ok s.

(** A square can only be selected outside the engine-versus-engine mode. *)
Definition selection_inv (s : t) : Prop :=
  mode s = ENGINE_VS_ENGINE -> selected_sq s = None.

(** Where [draw_board] blits the piece standing on [sq]: the top-left
    corner of its 80x80 square. *)
Definition square_origin (sq : Z) : Z * Z :=
  (square_file sq * SQUARE_SIZE, (7 - square_rank sq) * SQUARE_SIZE).

(** The selection is coherent with the board: a selected square holds a
    piece its player may pick up now, and the highlighted destinations are
    the destinations of the legal moves from that square. *)
Definition selection_ok (s : t) : Prop :=
  match selected_sq s with
  | None => valid_dest_sqs s = []
  | Some sq =>
      (exists piece,
         piece_at (board s) sq = Some piece /\ may_select s piece = true) /\
      valid_dest_sqs s
      = map to_square
          (filter (fun m => from_square m =? sq) (legal_moves (board s)))
  end.

(** The log and the board agree on whose half-move comes next. *)
Definition log_follows_board (s : t) : Prop :=
  ScrollableMoveLog.well_numbered (move_log s) /\
  ScrollableMoveLog.waiting_for_black (move_log s) = negb (turn (board s)).

(** The slot holds nothing, or an answer of the engine. *)
Definition pending_from_engine (s : t) : Prop :=
  forall m, pending_engine_move s = Some m ->
            engine_ok = true /\ exists b, play b = Some m.

(** The reference time of the running turn is not in the future. *)
Definition clock_inv (s : t) : Prop :=
  (Clock.last_tick (game_clock s) <= wall (reads s))%Q.

(** An action of the main loop, as opposed to a step of the thread. *)
Definition main_loop_action (a : Action) : bool :=
  match a with
  | Input _ | Tick => true
  | WorkerRead | WorkerWrite | WorkerExit => false
  end.

(** The two keys that start a game afresh. *)
Definition is_reset (a : Action) : bool :=
  match a with
  | Input (KEYDOWN K_n) | Input (KEYDOWN K_SPACE) => true
  | _ => false
  end.

(** The clicks on which [on_click] lets [IndexError] escape. *)
Definition click_raises (s : t) (pos : Z * Z) : bool :=
  negb (Mode_eqb (mode s) ENGINE_VS_ENGINE) &&
  negb ((BOARD_SIZE <=? fst pos) || (BOARD_SIZE <=? snd pos)) &&
  negb (square_in_table (clicked_square pos)).

(** A mouse-button event whose position has no negative coordinate, as
    for every click inside the window; other events always qualify. *)
Definition in_window (e : Event) : Prop :=
  match e with
  | MOUSEBUTTONDOWN _ pos => 0 <= fst pos /\ 0 <= snd pos
  | _ => True
  end.

(** The shapes a successful step can take, read off [handle_events],
    [on_click], [handle_engine] and [engine_calculate]. *)
Inductive transition (s : t) : Action -> t -> Prop :=
| tr_quit : transition s (Input QUIT) (set_running s false)
| tr_new_game : transition s (Input (KEYDOWN K_n)) (new_game s)
| tr_change_mode : transition s (Input (KEYDOWN K_SPACE)) (change_mode s)
| tr_audio e : transition s (Input e) (set_audio_enabled s (negb (audio_enabled s)))
| tr_unselect e : transition s (Input e) (set_selection s None [])
| tr_ignored e : transition s (Input e) s
| tr_wheel ey mouse :
    transition s (Input (MOUSEWHEEL ey mouse))
      (set_move_log s
         (fst (ScrollableMoveLog.handle_mouse_wheel (move_log s) ey mouse)))
| tr_select pos piece :
    selected_sq s = None ->
    piece_at (board s) (clicked_square pos) = Some piece ->
    may_select s piece = true ->
    transition s (Input (MOUSEBUTTONDOWN 1 pos))
      (set_selection s (Some (clicked_square pos))
         (map to_square
            (filter (fun m => from_square m =? clicked_square pos)
                    (legal_moves (board s)))))
| tr_click_move pos sel s' :
    selected_sq s = Some sel ->
    submitted_move s pos = Some (mkMove sel (clicked_square pos) None) ->
    make_move s (mkMove sel (clicked_square pos) None) = Ok s' ->
    transition s (Input (MOUSEBUTTONDOWN 1 pos)) s'
| tr_engine_move m s' :
    pending_engine_move s = Some m -> Move_bool m = true ->
    make_move s m = Ok s' ->
    transition s Tick (set_pending_engine_move s' None)
| tr_no_engine_move : transition s Tick s
| tr_worker_read : transition s WorkerRead (worker_read s)
| tr_worker_write : transition s WorkerWrite (worker_write s)
| tr_worker_exit : transition s WorkerExit (worker_exit s).

End Controller.
End ChessGUI.

(** ** A reference implementation of the rules collaborator

    The controller is exercised on concrete games with the position
    representation below: an 8x8 array of pieces and the side to move, with
    the movement rules of chess for all six pieces, captures, the double
    pawn step, promotion and the ban on leaving one's own king attacked.
    Castling, en passant and the draw counters of [is_game_over] are not
    represented, and [notation] prints only the piece letter, the
    destination and the promotion.  [generate_legal_moves] enumerates in
    square order, which is not the order of python-chess.  A square outside
    0..63 is empty here, whereas python-chess reads a negative square from
    the end of its table. *)

Module MiniChess.

Record position := mkPos { squares : list (option Piece); side : Color }.

Definition on_board (sq : Z) : bool := (0 <=? sq) && (sq <? 64).

Definition at_ (p : position) (sq : Z) : option Piece :=
  if on_board sq then nth (Z.to_nat sq) (squares p) None else None.

Definition back_rank (c : Color) : list (option Piece) :=
  map (fun k => Some (mkPiece k c))
      [ROOK; KNIGHT; BISHOP; QUEEN; KING; BISHOP; KNIGHT; ROOK].

Definition pawn_rank (c : Color) : list (option Piece) :=
  repeat (Some (mkPiece PAWN c)) 8.

Definition start : position :=
  mkPos (back_rank WHITE ++ pawn_rank WHITE ++ repeat None 32 ++
         pawn_rank BLACK ++ back_rank BLACK) WHITE.

Fixpoint put (l : list (option Piece)) (n : nat) (v : option Piece)
  : list (option Piece) :=
  match l, n with
  | [], _ => []
  | _ :: rest, O => v :: rest
  | x :: rest, S k => x :: put rest k v
  end.

(** [Board.push]: the piece leaves its square and lands, possibly
    promoted, with the colour of the side to move; the turn passes.  No
    legality is checked.  (With an empty origin only the turn passes;
    [make_move] never gets that far.) *)
Definition push_move (p : position) (m : Move) : position :=
  match at_ p (from_square m) with
  | None => mkPos (squares p) (negb (side p))
  | Some pc =>
      let kind := match promotion m with Some k => k | None => piece_type pc end in
      mkPos (put (put (squares p) (Z.to_nat (from_square m)) None)
                 (Z.to_nat (to_square m)) (Some (mkPiece kind (side p))))
            (negb (side p))
  end.

Definition is_free (p : position) (sq : Z) : bool :=
  match at_ p sq with None => true | Some _ => false end.

Definition holds (p : position) (sq : Z) (c : Color) : bool :=
  match at_ p sq with Some pc => Bool.eqb (color pc) c | None => false end.

(** The squares strictly between [a] and [b] on a common line are free. *)
Definition clear_path (p : position) (a b : Z) : bool :=
  let df := square_file b - square_file a in
  let dr := square_rank b - square_rank a in
  let n := Z.max (Z.abs df) (Z.abs dr) in
  forallb (fun i => is_free p (square (square_file a + i * Z.sgn df)
                                      (square_rank a + i * Z.sgn dr)))
          (map Z.of_nat (seq 1 (Z.to_nat n - 1))).

(** Piece [pc] standing on [a] attacks square [b]. *)
Definition attacks (p : position) (a b : Z) (pc : Piece) : bool :=
  let df := square_file b - square_file a in
  let dr := square_rank b - square_rank a in
  let straight := ((df =? 0) || (dr =? 0)) && negb ((df =? 0) && (dr =? 0)) in
  let diagonal := (Z.abs df =? Z.abs dr) && negb (df =? 0) in
  match piece_type pc with
  | KNIGHT => ((Z.abs df =? 1) && (Z.abs dr =? 2)) ||
              ((Z.abs df =? 2) && (Z.abs dr =? 1))
  | KING => Z.max (Z.abs df) (Z.abs dr) =? 1
  | ROOK => if straight then clear_path p a b else false
  | BISHOP => if diagonal then clear_path p a b else false
  | QUEEN => if straight || diagonal then clear_path p a b else false
  | PAWN => (Z.abs df =? 1) && (dr =? (if color pc then 1 else -1))
  end.

Definition promotion_ok (pawn_to_back_rank : bool) (promo : option PieceType) : bool :=
  match promo with
  | None => negb pawn_to_back_rank
  | Some KNIGHT | Some BISHOP | Some ROOK | Some QUEEN => pawn_to_back_rank
  | Some _ => false
  end.

Definition pawn_step (p : position) (a b : Z) (pc : Piece) : bool :=
  let df := square_file b - square_file a in
  let dr := square_rank b - square_rank a in
  let dir := if side p then 1 else -1 in
  let home := if side p then 1 else 6 in
  ((df =? 0) && (dr =? dir) && is_free p b) ||
  ((df =? 0) && (dr =? 2 * dir) && (square_rank a =? home) &&
     is_free p (square (square_file a) (square_rank a + dir)) &&
     is_free p b) ||
  (attacks p a b pc && holds p b (negb (side p))).

Definition pseudo_legal (p : position) (m : Move) : bool :=
  let a := from_square m in
  let b := to_square m in
  if on_board a && on_board b then
    match at_ p a with
    | None => false
    | Some pc =>
        if Bool.eqb (color pc) (side p) && negb (holds p b (side p)) then
          match piece_type pc with
          | PAWN =>
              if promotion_ok ((square_rank b =? 0) || (square_rank b =? 7))
                              (promotion m)
              then pawn_step p a b pc else false
          | _ =>
              if promotion_ok false (promotion m)
              then attacks p a b pc else false
          end
        else false
    end
  else false.

Definition all_squares : list Z := map Z.of_nat (seq 0 64).

(** The king of colour [c] stands on a square attacked by the other side. *)
Definition king_attacked (p : position) (c : Color) : bool :=
  existsb (fun k =>
    match at_ p k with
    | Some (mkPiece KING c') =>
        if Bool.eqb c' c then
          existsb (fun a =>
            match at_ p a with
            | Some pc =>
                if Bool.eqb (color pc) c then false else attacks p a k pc
            | None => false
            end) all_squares
        else false
    | _ => false
    end) all_squares.

Definition legal (p : position) (m : Move) : bool :=
  if pseudo_legal p m then negb (king_attacked (push_move p m) (side p)) else false.

Definition candidates : list Move :=
  flat_map (fun a =>
    flat_map (fun b =>
      map (mkMove a b) [None; Some KNIGHT; Some BISHOP; Some ROOK; Some QUEEN])
      all_squares) all_squares.

Definition generate_legal_moves (p : position) : list Move :=
  filter (legal p) candidates.

Definition game_over (p : position) : bool :=
  match generate_legal_moves p with [] => true | _ => false end.

Definition piece_letter (k : PieceType) : string :=
  match k with
  | PAWN => "" | KNIGHT => "N" | BISHOP => "B"
  | ROOK => "R" | QUEEN => "Q" | KING => "K"
  end.

Definition square_name (sq : Z) : string :=
  String (Ascii.ascii_of_nat (97 + Z.to_nat (square_file sq)))
    (String (Ascii.ascii_of_nat (49 + Z.to_nat (square_rank sq))) "").

Definition notation (p : position) (m : Move) : string :=
  (match at_ p (from_square m) with
   | Some pc => piece_letter (piece_type pc)
   | None => ""
   end ++ square_name (to_square m) ++
   match promotion m with
   | Some k => "=" ++ piece_letter k
   | None => ""
   end)%string.

#[export] Instance rules : Rules position :=
  Build_Rules position start side at_ generate_legal_moves push_move notation game_over.

(** Squares and moves of the games played below. *)
Definition e2 : Z := 12.
Definition e4 : Z := 28.
Definition e5 : Z := 36.
Definition e7 : Z := 52.
Definition e2e4 : Move := mkMove e2 e4 None.
Definition e7e5 : Move := mkMove e7 e5 None.

(** An engine that knows one reply per side. *)
Definition book_engine (p : position) : option Move :=
  if side p then Some e2e4 else Some e7e5.

(** One second passes between two readings of the clock. *)
Definition seconds (k : nat) : Q := inject_Z (Z.of_nat k).

(** The centre of the square [sq] in window coordinates. *)
Definition pixel (sq : Z) : Z * Z :=
  (square_file sq * SQUARE_SIZE + 40, (7 - square_rank sq) * SQUARE_SIZE + 40).

Definition click (sq : Z) : ChessGUI.Action :=
  ChessGUI.Input (ChessGUI.MOUSEBUTTONDOWN 1 (pixel sq)).

Definition press (k : ChessGUI.Key) : ChessGUI.Action :=
  ChessGUI.Input (ChessGUI.KEYDOWN k).

(** The program with a working engine, started. *)
Definition session : ChessGUI.t := ChessGUI.init true seconds.

Definition play_trace (trace : list ChessGUI.Action) : ChessGUI.outcome :=
  ChessGUI.run true book_engine seconds session trace.

(** The state the program is in after [trace] ([session] if it died). *)
Definition after (trace : list ChessGUI.Action) : ChessGUI.t :=
  match play_trace trace with
  | ChessGUI.Ok s => s
  | ChessGUI.Raised => session
  end.

(** An ending with a white pawn on e7 about to promote: white king e1,
    black king a8, White to move. *)
Definition e1 : Z := 4.
Definition e8 : Z := 60.
Definition a8 : Z := 56.
Definition pawn_ending : position :=
  mkPos (put (put (put (repeat None 64)
                       (Z.to_nat e1) (Some (mkPiece KING WHITE)))
                  (Z.to_nat a8) (Some (mkPiece KING BLACK)))
             (Z.to_nat e7) (Some (mkPiece PAWN WHITE)))
        WHITE.

(** The same program when the engine process failed to start. *)
Definition after_without_engine (trace : list ChessGUI.Action) : ChessGUI.t :=
  match ChessGUI.run false book_engine seconds (ChessGUI.init false seconds) trace with
  | ChessGUI.Ok s => s
  | ChessGUI.Raised => session
  end.

End MiniChess.

(** ** [engine_test.py]: reading the engine's reply

    The script collects the lines the engine prints and looks for the move
    in them.  A line is a [string], that is a sequence of characters with
    code below 256. *)

Module EngineTest.

(** [str.isspace] on one character: the whitespace at which [str.split()]
    cuts. *)
Definition isspace (c : Ascii.ascii) : bool :=
  let n := Ascii.nat_of_ascii c in
  ((9 <=? n) && (n <=? 13) || (28 <=? n) && (n <=? 32) ||
   (n =? 133) || (n =? 160))%nat.

(** [s.split()]: the maximal runs of non-whitespace characters, in order. *)
Fixpoint split (s : string) : list string :=
  match s with
  | EmptyString => []
  | String c rest =>
      if isspace c then split rest
      else
        match rest with
        | EmptyString => [String c EmptyString]
        | String c' _ =>
            if isspace c' then String c EmptyString :: split rest
            else
              match split rest with
              | w :: ws => String c w :: ws
              | [] => [String c EmptyString]
              end
        end
  end.

(** [resp.startswith("bestmove")] *)
Definition is_bestmove (resp : string) : bool := String.prefix "bestmove" resp.

(** The loop of [test_position_and_search] and [test_multiple_positions]:
    the second word of the first line that starts with "bestmove" and has
    two words or more; [None] when the loop ends without a [break]. *)
Fixpoint best_move_of (responses : list string) : option string :=
  match responses with
  | [] => None
  | resp :: rest =>
      if is_bestmove resp then
        match split resp with
        | _ :: m :: _ => Some m
        | _ => best_move_of rest
        end
      else best_move_of rest
  end.

(** A word: not empty, no whitespace in it. *)
Fixpoint no_space (w : string) : bool :=
  match w with
  | EmptyString => true
  | String c rest => negb (isspace c) && no_space rest
  end.

Definition is_word (w : string) : Prop := w <> EmptyString /\ no_space w = true.

(** Empty, or beginning with whitespace. *)
Definition starts_with_space (s : string) : Prop :=
  match s with
  | EmptyString => True
  | String c _ => isspace c = true
  end.

End EngineTest.

(** * Properties *)

(** ** The clock *)

Section ClockFacts.

Import Clock.

Lemma remaining_set_same c side v : remaining (set_remaining c side v) side = v.
Proof. destruct side; reflexivity. Qed.

Lemma remaining_set_other c side v :
  remaining (set_remaining c side v) (negb side) = remaining c (negb side).
Proof. destruct side; reflexivity. Qed.

Lemma last_tick_set c side v : last_tick (set_remaining c side v) = last_tick c.
Proof. destruct side; reflexivity. Qed.

Lemma remaining_start_turn c now side :
  remaining (start_turn c now) side = remaining c side.
Proof. destruct side; reflexivity. Qed.

Lemma remaining_stop_turn_same c side now :
  remaining (stop_turn c side now) side
  = (remaining c side - (now - last_tick c))%Q.
Proof. unfold stop_turn. apply remaining_set_same. Qed.

Lemma last_tick_stop_turn c side now : last_tick (stop_turn c side now) = last_tick c.
Proof. unfold stop_turn. apply last_tick_set. Qed.

(** A stop never gives time back when the clock has not run backwards. *)
Lemma stop_turn_le c side now who :
  (last_tick c <= now)%Q ->
  (remaining (stop_turn c side now) who <= remaining c who)%Q.
Proof.
  intros Hnow. unfold stop_turn.
  destruct side, who; cbn [remaining set_remaining remaining_white remaining_black];
    lra.
Qed.

Lemma chronological_weaken t t' ops :
  (t' <= t)%Q -> chronological t ops -> chronological t' ops.
Proof.
  destruct ops as [|o rest]; cbn; [trivial|].
  intros Hle [H1 H2]. split; [lra | exact H2].
Qed.

Lemma apply_le c o who :
  (last_tick c <= op_time o)%Q ->
  (remaining (apply c o) who <= remaining c who)%Q /\
  (last_tick (apply c o) <= op_time o)%Q.
Proof.
  intros Hle. destruct o as [now | side now]; cbn [apply op_time] in *.
  - rewrite remaining_start_turn. cbn. split; lra.
  - rewrite last_tick_stop_turn. split; [now apply stop_turn_le | exact Hle].
Qed.

Lemma run_le ops : forall c who,
  chronological (last_tick c) ops ->
  (remaining (run c ops) who <= remaining c who)%Q.
Proof.
  induction ops as [|o rest IH]; intros c who Hc; cbn [run fold_left].
  - lra.
  - destruct Hc as [H1 H2].
    destruct (apply_le c o who H1) as [Hrem Htick].
    specialize (IH (apply c o) who (chronological_weaken _ _ _ Htick H2)).
    unfold run in IH. lra.
Qed.

Lemma flag_true_iff c :
  flag c = true <-> exists side, (remaining c side <= 0)%Q.
Proof.
  unfold flag. rewrite orb_true_iff, !Qle_bool_iff. split.
  - intros [H | H]; [exists WHITE | exists BLACK]; exact H.
  - intros [[|] H]; [left | right]; exact H.
Qed.

Lemma int_nonpos x : (x <= 0)%Q -> int x <= 0.
Proof.
  unfold Qle, int. cbn. intros H.
  assert (Hn : Qnum x <= 0) by lia.
  replace (Qnum x) with (- (- Qnum x)) by lia.
  rewrite Z.quot_opp_l by lia.
  assert (0 <= Z.quot (- Qnum x) (Z.pos (Qden x))) by (apply Z.quot_pos; lia).
  lia.
Qed.

End ClockFacts.

(** C5 (as stated, refuted): a second [stop_turn] for the same side with no
    [start_turn] in between is not rejected.  On a fresh 300 s clock created
    at time 0, White is stopped at time 10 and again at time 10: the second
    call takes another 10 s, leaving 280 s instead of 290 s. *)
Example stop_turn_twice_deducts_again :
  let c := Clock.init START_TIME 0 in
  let c1 := Clock.stop_turn c WHITE 10 in
  let c2 := Clock.stop_turn c1 WHITE 10 in
  (Clock.remaining c1 WHITE == 290)%Q /\
  (Clock.remaining c2 WHITE == 280)%Q /\
  (Clock.remaining c2 WHITE < Clock.remaining c1 WHITE)%Q.
Proof. cbv. repeat split; reflexivity. Qed.

(** C5 (amended): [stop_turn] has no guard.  Each call subtracts the time
    elapsed since the last [start_turn] and leaves [last_tick] alone, so two
    calls for one side at times [t1] and [t2] subtract [t1 - last_tick] and
    then [t2 - last_tick], both counted from the same reference. *)
Theorem stop_turn_unguarded (c : Clock.t) (side : Color) (t1 t2 : Q) :
  let c1 := Clock.stop_turn c side t1 in
  let c2 := Clock.stop_turn c1 side t2 in
  Clock.last_tick c1 = Clock.last_tick c /\
  (Clock.remaining c1 side == Clock.remaining c side - (t1 - Clock.last_tick c))%Q /\
  (Clock.remaining c2 side
   == Clock.remaining c side - (t1 - Clock.last_tick c) - (t2 - Clock.last_tick c))%Q.
Proof.
  cbn zeta. rewrite !remaining_stop_turn_same, !last_tick_stop_turn.
  repeat split; lra.
Qed.

(** C6 (as stated, refuted): the stored remaining time does go negative.  A
    fresh 300 s clock created at time 0 and stopped for White at time 301
    stores -1 s for White. *)
Example remaining_goes_negative :
  let c := Clock.run (Clock.init START_TIME 0) [Clock.StopTurn WHITE 301] in
  (Clock.remaining c WHITE == -1)%Q /\ (Clock.remaining c WHITE < 0)%Q.
Proof. cbv. split; reflexivity. Qed.

(** C6 (amended): after any sequence of clock operations the seconds that
    [draw] shows, [max(0, int(remaining))], are never negative, and they are
    0 as soon as the stored remaining time is zero or below. *)
Theorem draw_secs_never_negative (c : Clock.t) (ops : list Clock.op) (side : Color) :
  let c' := Clock.run c ops in
  0 <= Clock.draw_secs c' side /\
  ((Clock.remaining c' side <= 0)%Q -> Clock.draw_secs c' side = 0).
Proof.
  cbn zeta. unfold Clock.draw_secs. split.
  - apply Z.le_max_l.
  - intros H. apply int_nonpos in H. lia.
Qed.

(** C9 (amended): on one [Clock] instance, along any sequence of
    [start_turn] and [stop_turn] calls whose clock readings do not go
    backwards, neither
    side's remaining time ever increases ([start_turn] leaves it as it is,
    [stop_turn] subtracts a non-negative interval); hence a clock whose
    [flag()] is true keeps it true. *)
Theorem remaining_never_increases (c : Clock.t) (ops : list Clock.op) :
  Clock.chronological (Clock.last_tick c) ops ->
  (forall side, (Clock.remaining (Clock.run c ops) side <= Clock.remaining c side)%Q) /\
  (forall now side, Clock.remaining (Clock.start_turn c now) side = Clock.remaining c side) /\
  (Clock.flag c = true -> Clock.flag (Clock.run c ops) = true).
Proof.
  intros Hc. split; [|split].
  - intros side. now apply run_le.
  - intros now side. apply remaining_start_turn.
  - rewrite !flag_true_iff. intros [side Hside]. exists side.
    pose proof (run_le ops c side Hc). lra.
Qed.

(** A flagged clock stays flagged through further turns. *)
Lemma remaining_never_increases_witness :
  let c := Clock.run (Clock.init START_TIME 0) [Clock.StopTurn WHITE 301] in
  let ops := [Clock.StartTurn 301; Clock.StopTurn BLACK 305; Clock.StartTurn 306] in
  Clock.chronological (Clock.last_tick c) ops /\
  Clock.flag c = true /\ Clock.flag (Clock.run c ops) = true.
Proof.
  cbn zeta.
  assert (H : Clock.chronological
                (Clock.last_tick (Clock.run (Clock.init START_TIME 0) [Clock.StopTurn WHITE 301]))
                [Clock.StartTurn 301; Clock.StopTurn BLACK 305; Clock.StartTurn 306]).
  { cbn. repeat split; unfold Qle; cbn; lia. }
  split; [exact H | split; [reflexivity|]].
  apply (remaining_never_increases _ _ H). reflexivity.
Defined.

(** ** The move log *)

Section MoveLogFacts.

Import ScrollableMoveLog.

Lemma scroll_limit_nonneg g : line_height g = 18 -> 0 <= scroll_limit g.
Proof. unfold scroll_limit. intros ->. lia. Qed.

Lemma line_height_add_move g san w : line_height (add_move g san w) = line_height g.
Proof.
  unfold add_move.
  destruct w; [|destruct (waiting_for_black g && negb (is_empty (moves g)))];
    reflexivity.
Qed.

(** [add_move] leaves the offset on the limit computed from the new row
    count, whatever the log was before. *)
Lemma add_move_scroll g san w :
  let g' := add_move g san w in
  scroll_y g' = max_scroll g' /\ max_scroll g' = scroll_limit g'.
Proof.
  cbn zeta. unfold add_move, scroll_limit.
  destruct w; [|destruct (waiting_for_black g && negb (is_empty (moves g)))];
    cbn [_auto_scroll_to_bottom _update_scroll_limits scroll_y max_scroll moves
         visible_lines line_height];
    (split; [reflexivity|]);
    match goal with
    | |- context [?v <? ?n] => destruct (Z.ltb_spec v n); lia
    end.
Qed.

Lemma scroll_inv_init x y w h : scroll_inv (init x y w h).
Proof.
  unfold scroll_inv, scroll_limit, init. cbn. repeat split; lia.
Qed.

Lemma scroll_inv_add_move g san w : scroll_inv g -> scroll_inv (add_move g san w).
Proof.
  intros (Hlh & _ & _).
  destruct (add_move_scroll g san w) as [Hy Hm].
  assert (Hlh' : line_height (add_move g san w) = 18)
    by (rewrite line_height_add_move; exact Hlh).
  pose proof (scroll_limit_nonneg _ Hlh').
  unfold scroll_inv. repeat split; lia.
Qed.

Lemma scroll_inv_clear g : scroll_inv g -> scroll_inv (clear g).
Proof.
  intros (Hlh & _ & _). unfold scroll_inv, scroll_limit, clear. cbn.
  rewrite Hlh. repeat split; lia.
Qed.

Lemma scroll_inv_wheel g ey mouse :
  scroll_inv g -> scroll_inv (fst (handle_mouse_wheel g ey mouse)).
Proof.
  intros (Hlh & Hy & Hm). unfold handle_mouse_wheel.
  destruct (collidepoint (rect g) mouse); cbn [fst].
  - unfold scroll_inv, scroll_limit in *. cbn. repeat split; lia.
  - repeat split; tauto || lia.
Qed.

Lemma scroll_inv_run ops : forall g, scroll_inv g -> scroll_inv (run g ops).
Proof.
  induction ops as [|o rest IH]; intros g Hg; [exact Hg|].
  cbn [run fold_left]. apply IH.
  destruct o; cbn [apply];
    auto using scroll_inv_add_move, scroll_inv_clear, scroll_inv_wheel.
Qed.

End MoveLogFacts.

(** C8: for every log the program can build (created with any geometry, then
    any sequence of [add_move], [clear] and mouse-wheel events), right after
    an [add_move] the offset [scroll_y] equals
    [max(0, total - visible_lines) * line_height], which is also the stored
    [max_scroll]; and after a mouse-wheel adjustment the offset lies between
    0 and [max_scroll], itself at most that limit. *)
Theorem scroll_offset_bounds (x y w h : Z) (ops : list ScrollableMoveLog.op) :
  let g := ScrollableMoveLog.run (ScrollableMoveLog.init x y w h) ops in
  (forall san is_white,
     let g' := ScrollableMoveLog.add_move g san is_white in
     ScrollableMoveLog.scroll_y g'
     = Z.max 0 (Z.of_nat (List.length (ScrollableMoveLog.moves g'))
                - ScrollableMoveLog.visible_lines g')
       * ScrollableMoveLog.line_height g' /\
     ScrollableMoveLog.scroll_y g' = ScrollableMoveLog.max_scroll g') /\
  (forall ey mouse,
     let g' := fst (ScrollableMoveLog.handle_mouse_wheel g ey mouse) in
     0 <= ScrollableMoveLog.scroll_y g' <= ScrollableMoveLog.max_scroll g' /\
     ScrollableMoveLog.max_scroll g' <= ScrollableMoveLog.scroll_limit g').
Proof.
  cbn zeta. split.
  - intros san is_white.
    destruct (add_move_scroll
                (ScrollableMoveLog.run (ScrollableMoveLog.init x y w h) ops)
                san is_white) as [Hy Hm].
    cbn zeta in Hy, Hm. unfold ScrollableMoveLog.scroll_limit in Hm.
    split; congruence.
  - intros ey mouse.
    pose proof (scroll_inv_wheel _ ey mouse
                  (scroll_inv_run ops _ (scroll_inv_init x y w h))) as (_ & Hy & Hm).
    split; assumption.
Qed.

(** ** The controller *)

Section ControllerFacts.

Import ChessGUI.

Context {Board : Type} {R : Rules Board}.
Variable engine_ok : bool.
Variable play : Board -> option Move.
Variable wall : nat -> Q.

#[local] Abbreviation maybe_start_engine_think := (maybe_start_engine_think engine_ok).
#[local] Abbreviation make_move := (make_move engine_ok wall).
#[local] Abbreviation on_click := (on_click engine_ok wall).
#[local] Abbreviation handle_engine := (handle_engine engine_ok wall).
#[local] Abbreviation handle_event := (handle_event engine_ok wall).
#[local] Abbreviation step := (step engine_ok play wall).
#[local] Abbreviation run := (run engine_ok play wall).
#[local] Abbreviation init := (init engine_ok wall).
#[local] Abbreviation reachable := (reachable engine_ok play wall).
#[local] Abbreviation worker_write := (worker_write engine_ok play).
#[local] Abbreviation best_move := (best_move engine_ok play).

(** [maybe_start_engine_think] touches nothing but the thread handle. *)
Lemma maybe_start_frame s :
  let s' := maybe_start_engine_think s in
  board s' = board s /\ mode s' = mode s /\ game_clock s' = game_clock s /\
  move_log s' = move_log s /\ selected_sq s' = selected_sq s /\
  valid_dest_sqs s' = valid_dest_sqs s /\ last_move s' = last_move s /\
  pending_engine_move s' = pending_engine_move s /\ reads s' = reads s.
Proof.
  cbn zeta. unfold ChessGUI.maybe_start_engine_think.
  destruct engine_ok; cbn [negb]; [|repeat split].
  destruct (engine_thread s); [repeat split|].
  destruct (is_game_over (board s)); [repeat split|].
  destruct (engine_to_move (turn (board s)) (mode s)); repeat split.
Qed.

Lemma board_clock_stop_turn (s : @t Board) side :
  board (clock_stop_turn wall s side) = board s.
Proof. reflexivity. Qed.

(** What a successful [make_move] leaves behind. *)
Lemma make_move_spec s move :
  piece_at (board s) (from_square move) <> None ->
  let move' := if promotion_defaulted (board s) move
               then with_promotion move QUEEN else move in
  exists s',
    make_move s move = Ok s' /\
    board s' = push (board s) move' /\
    last_move s' = Some move' /\
    move_log s' = ScrollableMoveLog.add_move (move_log s) (san (board s) move')
                    (Bool.eqb (turn (board s)) WHITE) /\
    mode s' = mode s /\ selected_sq s' = None /\ valid_dest_sqs s' = [] /\
    pending_engine_move s' = pending_engine_move s.
Proof.
  intros Hocc. cbn zeta. unfold ChessGUI.make_move.
  rewrite !board_clock_stop_turn.
  destruct (piece_at (board s) (from_square move)) as [pc|]; [|congruence].
  eexists. split; [reflexivity|].
  match goal with
  | |- context [ChessGUI.maybe_start_engine_think _ ?x] =>
      destruct (maybe_start_frame x) as (Hb & Hm & _ & Hl & Hs & Hv & Hlm & Hp & _)
  end.
  rewrite Hb, Hm, Hl, Hs, Hv, Hlm, Hp. clear Hb Hm Hl Hs Hv Hlm Hp.
  destruct (promotion_defaulted (board s) move);
    destruct (Mode_eqb (mode s) ANALYSIS) eqn:Ha; cbn; rewrite ?Ha; cbn;
    repeat split.
Qed.

Lemma make_move_raises s move :
  piece_at (board s) (from_square move) = None -> make_move s move = Raised.
Proof.
  intros H. unfold ChessGUI.make_move. rewrite !board_clock_stop_turn, H.
  reflexivity.
Qed.

Lemma make_move_fields s move s' :
  make_move s move = Ok s' -> mode s' = mode s /\ selected_sq s' = None.
Proof.
  intros H.
  destruct (piece_at (board s) (from_square move)) eqn:Hp.
  - destruct (make_move_spec s move) as (s2 & H2 & _ & _ & _ & Hm & Hs & _).
    + congruence.
    + rewrite H in H2. injection H2 as <-. split; assumption.
  - rewrite (make_move_raises _ _ Hp) in H. discriminate.
Qed.

Lemma Move_eqb_eq a b : Move_eqb a b = true <-> a = b.
Proof.
  unfold Move_eqb. rewrite !andb_true_iff, !Z.eqb_eq.
  destruct a as [fa ta pa], b as [fb tb pb]; cbn. split.
  - intros [[-> ->] Hp]. f_equal.
    destruct pa as [[]|], pb as [[]|]; cbn in Hp; congruence.
  - intros [= -> -> ->]. repeat split.
    destruct pb as [[]|]; reflexivity.
Qed.

Lemma is_legal_In b mv : is_legal b mv = true <-> In mv (legal_moves b).
Proof.
  unfold is_legal. rewrite existsb_exists. split.
  - intros (x & Hin & Heq). apply Move_eqb_eq in Heq. now subst.
  - intros Hin. exists mv. split; [exact Hin | now apply Move_eqb_eq].
Qed.

Lemma on_click_mode s pos s' :
  on_click s pos = Ok s' ->
  mode s' = mode s /\ (mode s = ENGINE_VS_ENGINE -> s' = s).
Proof.
  unfold ChessGUI.on_click.
  destruct (Mode_eqb (mode s) ENGINE_VS_ENGINE) eqn:Hm.
  - intros [= <-]. auto.
  - assert (Hne : mode s <> ENGINE_VS_ENGINE)
      by (intros E; rewrite E in Hm; discriminate).
    intros H. split; [|tauto].
    destruct ((BOARD_SIZE <=? fst pos) || (BOARD_SIZE <=? snd pos));
      [now injection H as <-|].
    destruct (negb (square_in_table (clicked_square pos))); [discriminate|].
    destruct (selected_sq s).
    + destruct (is_legal (board s) _).
      * now apply make_move_fields in H.
      * now injection H as <-.
    + destruct (piece_at (board s) _); [|now injection H as <-].
      destruct (may_select s p); now injection H as <-.
Qed.

Lemma step_selection_inv s a s' :
  step s a = Ok s' -> selection_inv s -> selection_inv s'.
Proof.
  unfold selection_inv. intros Hstep Hinv.
  destruct a as [e| | | |]; cbn [ChessGUI.step] in Hstep.
  - destruct e as [|k|ey mouse|button pos]; cbn [ChessGUI.handle_event] in Hstep.
    + injection Hstep as <-. exact Hinv.
    + destruct k; injection Hstep as <-; try exact Hinv; try reflexivity.
      * intros _. unfold new_game.
        now rewrite (proj1 (proj2 (proj2 (proj2 (proj2 (maybe_start_frame _)))))).
      * intros _. unfold change_mode.
        now rewrite (proj1 (proj2 (proj2 (proj2 (proj2 (maybe_start_frame _)))))).
    + injection Hstep as <-. exact Hinv.
    + destruct (button =? 1); [|injection Hstep as <-; exact Hinv].
      destruct (ScrollableMoveLog.collidepoint audio_btn_rect pos);
        [injection Hstep as <-; exact Hinv|].
      destruct (on_click_mode _ _ _ Hstep) as [Hm Hsame].
      intros Hee. rewrite Hm in Hee. rewrite (Hsame Hee). auto.
  - unfold ChessGUI.handle_engine in Hstep.
    destruct (pending_engine_move s) as [m|]; [|injection Hstep as <-; exact Hinv].
    destruct (Move_bool m); [|injection Hstep as <-; exact Hinv].
    destruct (make_move s m) as [s2|] eqn:Hmk; [|discriminate].
    injection Hstep as <-. intros _.
    apply make_move_fields in Hmk. cbn. tauto.
  - injection Hstep as <-. unfold worker_read.
    destruct (engine_thread s) as [[]|]; exact Hinv.
  - injection Hstep as <-. unfold ChessGUI.worker_write.
    destruct (engine_thread s) as [[]|]; exact Hinv.
  - injection Hstep as <-. unfold worker_exit.
    destruct (engine_thread s) as [[]|]; exact Hinv.
Qed.

Lemma run_selection_inv trace : forall s s',
  run s trace = Ok s' -> selection_inv s -> selection_inv s'.
Proof.
  induction trace as [|a rest IH]; intros s s' Hrun Hinv; cbn in Hrun.
  - now injection Hrun as <-.
  - destruct (step s a) as [s1|] eqn:Hs; [|discriminate].
    eauto using step_selection_inv.
Qed.

Lemma reachable_selection_inv s : reachable s -> selection_inv s.
Proof.
  intros [trace Hrun]. apply (run_selection_inv _ _ _ Hrun).
  intros _. unfold ChessGUI.init.
  now rewrite (proj1 (proj2 (proj2 (proj2 (proj2 (maybe_start_frame _)))))).
Qed.

(** [on_click] forwards [submitted_move] to [make_move], or raises on a
    square outside the library's table, or returns without touching the
    board, the clock, the log or the last move. *)
Lemma on_click_cases s pos :
  match submitted_move s pos with
  | Some mv => on_click s pos = make_move s mv
  | None =>
      if click_raises s pos then on_click s pos = Raised
      else
        exists s', on_click s pos = Ok s' /\
          board s' = board s /\ game_clock s' = game_clock s /\
          move_log s' = move_log s /\ last_move s' = last_move s
  end.
Proof.
  unfold submitted_move, click_raises, ChessGUI.on_click.
  destruct (Mode_eqb (mode s) ENGINE_VS_ENGINE); [now exists s|].
  destruct ((BOARD_SIZE <=? fst pos) || (BOARD_SIZE <=? snd pos)); [now exists s|].
  destruct (negb (square_in_table (clicked_square pos))); [reflexivity|].
  cbn [negb andb].
  destruct (selected_sq s) as [sel|].
  - destruct (is_legal (board s) _); [reflexivity|].
    eexists; split; [reflexivity|]. now cbn.
  - destruct (piece_at (board s) _) as [piece|]; [|now exists s].
    destruct (may_select s piece); [|now exists s].
    eexists; split; [reflexivity|]. now cbn.
Qed.

Lemma submitted_move_legal s pos mv :
  submitted_move s pos = Some mv -> In mv (legal_moves (board s)).
Proof.
  unfold submitted_move.
  destruct (Mode_eqb (mode s) ENGINE_VS_ENGINE); [discriminate|].
  destruct ((BOARD_SIZE <=? fst pos) || (BOARD_SIZE <=? snd pos)); [discriminate|].
  destruct (negb (square_in_table (clicked_square pos))); [discriminate|].
  destruct (selected_sq s) as [sel|]; [|discriminate].
  destruct (is_legal (board s) _) eqn:Hl; [|discriminate].
  intros [= <-]. now apply is_legal_In.
Qed.

(** X22: a move pushed by a user click belongs to [board.legal_moves] of
    the position it is pushed on: when [on_click] returns, it has either
    left the board as it was or pushed exactly the move that passed the
    membership test.  [handle_engine] itself makes no such test: it hands
    a pending move that is not the null move to [make_move], which pushes
    it (queen promotion defaulted) when its origin square is occupied. *)
Theorem click_moves_are_validated (HR : RulesSpec R) :
  (forall s pos s',
     on_click s pos = Ok s' ->
     (submitted_move s pos = None /\ board s' = board s /\
      last_move s' = last_move s /\ move_log s' = move_log s) \/
     (exists mv,
        submitted_move s pos = Some mv /\ In mv (legal_moves (board s)) /\
        board s' = push (board s) mv /\ last_move s' = Some mv)) /\
  (forall s m,
     pending_engine_move s = Some m -> Move_bool m = true ->
     piece_at (board s) (from_square m) <> None ->
     exists s',
       handle_engine s = Ok s' /\
       board s' = push (board s)
                    (if promotion_defaulted (board s) m
                     then with_promotion m QUEEN else m) /\
       pending_engine_move s' = None).
Proof.
  split.
  - intros s pos s' Hclick.
    pose proof (on_click_cases s pos) as Hc.
    destruct (submitted_move s pos) as [mv|] eqn:Hsub.
    + right. exists mv.
      pose proof (submitted_move_legal _ _ _ Hsub) as Hin.
      destruct (make_move_spec s mv (legal_from_occupied HR _ _ Hin))
        as (s2 & Hmk & Hb & Hl & _).
      rewrite (legal_promotion_set HR _ _ Hin) in Hb, Hl.
      assert (s2 = s') by congruence. subst s2. auto.
    + left. destruct (click_raises s pos); [congruence|].
      destruct Hc as (s2 & Hs2 & Hb & _ & Hl & Hlm).
      assert (s2 = s') by congruence. subst s2. auto.
  - intros s m Hp Hb Hocc. unfold ChessGUI.handle_engine. rewrite Hp, Hb.
    destruct (make_move_spec s m Hocc) as (s2 & Hmk & Hbd & _).
    rewrite Hmk. eexists. split; [reflexivity|]. split; [exact Hbd | reflexivity].
Qed.

(** A pixel of the board decodes to one of the 64 squares. *)
Lemma clicked_square_on_board pos :
  0 <= fst pos < BOARD_SIZE -> 0 <= snd pos < BOARD_SIZE ->
  0 <= clicked_square pos < 64.
Proof.
  unfold clicked_square, square, BOARD_SIZE, SQUARE_SIZE. intros Hx Hy.
  assert (0 <= fst pos / 80 < 8)
    by (split; [apply Z.div_pos | apply Z.div_lt_upper_bound]; lia).
  assert (0 <= snd pos / 80 < 8)
    by (split; [apply Z.div_pos | apply Z.div_lt_upper_bound]; lia).
  lia.
Qed.

(** C4: in every state the program can reach, a click that completes a move
    (a square is selected, the click is on a pixel of the board) which is
    not in [board.legal_moves] returns normally; the board, the clock and
    the move log are exactly as before and the selection is cleared.
    Nothing else changes either. *)
Theorem illegal_click_changes_nothing s pos sel :
  reachable s ->
  selected_sq s = Some sel ->
  0 <= fst pos < BOARD_SIZE -> 0 <= snd pos < BOARD_SIZE ->
  ~ In (mkMove sel (clicked_square pos) None) (legal_moves (board s)) ->
  exists s',
    on_click s pos = Ok s' /\
    board s' = board s /\ game_clock s' = game_clock s /\
    move_log s' = move_log s /\
    selected_sq s' = None /\ valid_dest_sqs s' = [] /\
    s' = set_selection s None [].
Proof.
  intros Hreach Hsel Hx Hy Hill.
  pose proof (reachable_selection_inv _ Hreach) as Hinv.
  unfold selection_inv in Hinv. unfold ChessGUI.on_click.
  destruct (Mode_eqb (mode s) ENGINE_VS_ENGINE) eqn:Hm.
  { destruct (mode s); try discriminate. rewrite Hinv in Hsel by reflexivity.
    discriminate. }
  replace ((BOARD_SIZE <=? fst pos) || (BOARD_SIZE <=? snd pos)) with false
    by (symmetry; apply orb_false_iff; split; apply Z.leb_gt; lia).
  pose proof (clicked_square_on_board pos Hx Hy) as Hsq.
  replace (square_in_table (clicked_square pos)) with true
    by (symmetry; unfold square_in_table; apply andb_true_iff;
        split; [apply Z.leb_le | apply Z.ltb_lt]; lia).
  cbn [negb]. rewrite Hsel.
  destruct (is_legal (board s) _) eqn:Hl.
  { apply is_legal_In in Hl. contradiction. }
  eexists. split; [reflexivity|]. now cbn.
Qed.

(** C7: when [make_move] receives a move whose origin holds a pawn, whose
    destination is on the first or last rank and whose promotion is unset,
    it returns normally and does exactly what it does for the same move with
    promotion queen: that move is pushed and remembered, and the notation
    appended to the log is the notation of the promoted move. *)
Theorem default_promotion_to_queen s move pc :
  piece_at (board s) (from_square move) = Some pc ->
  piece_type pc = PAWN ->
  square_rank (to_square move) = 0 \/ square_rank (to_square move) = 7 ->
  promotion move = None ->
  exists s',
    make_move s move = Ok s' /\
    make_move s (with_promotion move QUEEN) = Ok s' /\
    board s' = push (board s) (with_promotion move QUEEN) /\
    last_move s' = Some (with_promotion move QUEEN) /\
    move_log s' =
      ScrollableMoveLog.add_move (move_log s)
        (san (board s) (with_promotion move QUEEN))
        (Bool.eqb (turn (board s)) WHITE).
Proof.
  intros Hpc Hpawn Hrank Hpromo.
  assert (Hd : promotion_defaulted (board s) move = true).
  { unfold promotion_defaulted. rewrite Hpc, Hpawn, Hpromo.
    destruct Hrank as [-> | ->]; reflexivity. }
  assert (Hq : promotion_defaulted (board s) (with_promotion move QUEEN) = false).
  { unfold promotion_defaulted. cbn. rewrite Hpc. apply andb_false_r. }
  assert (Hocc : piece_at (board s) (from_square move) <> None) by congruence.
  destruct (make_move_spec s move Hocc) as (s1 & H1 & Hb & Hl & Hlog & _).
  rewrite Hd in Hb, Hl, Hlog.
  exists s1. repeat split; try assumption.
  unfold ChessGUI.make_move in *. rewrite !board_clock_stop_turn in *.
  cbn [from_square with_promotion] in *. rewrite Hq. rewrite Hd in H1.
  rewrite Hpc in *. exact H1.
Qed.


End ControllerFacts.

(** ** The reference rules meet the interface *)

Lemma MiniChess_legal_pseudo p m :
  In m (MiniChess.generate_legal_moves p) -> MiniChess.pseudo_legal p m = true.
Proof.
  unfold MiniChess.generate_legal_moves, MiniChess.legal. rewrite filter_In.
  intros [_ H]. destruct (MiniChess.pseudo_legal p m); [reflexivity | discriminate].
Qed.

Lemma MiniChess_rules_spec : RulesSpec MiniChess.rules.
Proof.
  split; intros p m Hin; apply MiniChess_legal_pseudo in Hin;
    unfold MiniChess.pseudo_legal in Hin;
    destruct (MiniChess.on_board (from_square m) && MiniChess.on_board (to_square m));
    try discriminate.
  - cbn. destruct (MiniChess.at_ p (from_square m)); [discriminate | discriminate].
  - unfold promotion_defaulted. cbn [piece_at MiniChess.rules].
    destruct (MiniChess.at_ p (from_square m)) as [pc|]; [|reflexivity].
    destruct (Bool.eqb (color pc) (MiniChess.side p) &&
              negb (MiniChess.holds p (to_square m) (MiniChess.side p)));
      [|discriminate].
    destruct (piece_type pc); try reflexivity. cbn [PieceType_eqb andb].
    destruct (promotion m) as [k|]; [apply andb_false_r|].
    cbn [MiniChess.promotion_ok] in Hin.
    destruct ((square_rank (to_square m) =? 0) || (square_rank (to_square m) =? 7));
      [discriminate | reflexivity].
Qed.

(** ** Concrete games *)

Section Games.

Import ChessGUI MiniChess.

#[local] Abbreviation step' := (ChessGUI.step true book_engine seconds).
#[local] Abbreviation run' := (ChessGUI.run true book_engine seconds).

(** The book engine answers with legal moves where it is consulted. *)
Lemma book_engine_answers_legally :
  book_engine start = Some e2e4 /\ In e2e4 (legal_moves start) /\
  book_engine (push start e2e4) = Some e7e5 /\
  In e7e5 (legal_moves (push start e2e4)).
Proof.
  split; [reflexivity|]. split.
  { refine (proj1 (is_legal_In (R := rules) _ _) _). vm_compute. reflexivity. }
  split; [vm_compute; reflexivity|].
  refine (proj1 (is_legal_In (R := rules) _ _) _). vm_compute. reflexivity.
Qed.

(** C1 (the code at the failing input): mode H-E, the user plays e2-e4, the
    thread is started for Black and hands the engine the position after
    e2-e4.  The user presses N: the board is back on the starting position
    and the pending slot is empty, but the thread lives on.  It then stores
    its answer e7-e5, and the next [handle_engine] pushes that move, found
    for the abandoned game, onto the board of the new game. *)
Example stale_engine_move_applied :
  exists s0 s1 s2,
    play_trace [click e2; click e4; WorkerRead] = Ok s0 /\
    engine_thread s0 = Some (Thinking (push start e2e4)) /\
    step' s0 (press K_n) = Ok s1 /\
    board s1 = start /\ pending_engine_move s1 = None /\
    ScrollableMoveLog.moves (move_log s1) = [] /\
    run' s1 [WorkerWrite; WorkerExit; Tick] = Ok s2 /\
    board s2 = push start e7e5 /\ last_move s2 = Some e7e5 /\
    List.length (ScrollableMoveLog.moves (move_log s2)) = 1%nat /\
    book_engine (push start e2e4) = Some e7e5.
Proof.
  do 3 eexists.
  split; [vm_compute; reflexivity|].
  split; [reflexivity|].
  split; [vm_compute; reflexivity|].
  split; [reflexivity|]. split; [reflexivity|]. split; [reflexivity|].
  split; [vm_compute; reflexivity|].
  repeat split.
Qed.

(** The same with a mode change (SPACE) in place of the new game: the stale
    e7-e5 lands on the fresh board of mode E-H. *)
Example stale_engine_move_applied_after_mode_change :
  exists s,
    play_trace [click e2; click e4; WorkerRead; press K_SPACE;
                WorkerWrite; WorkerExit; Tick] = Ok s /\
    mode s = ENGINE_VS_HUMAN /\
    board s = push start e7e5 /\ last_move s = Some e7e5.
Proof.
  eexists. split; [vm_compute; reflexivity|]. repeat split.
Qed.


(** C3 (the code at the failing input): after the new game the pending
    slot receives e7-e5, found for the abandoned game.  It is not a legal
    move of the starting position (White is to move), and [handle_engine],
    which does not make the membership test [on_click] makes, pushes it all
    the same. *)
Example engine_move_pushed_unchecked :
  let s := after [click e2; click e4; WorkerRead; press K_n;
                  WorkerWrite; WorkerExit] in
  exists s',
    board s = start /\
    pending_engine_move s = Some e7e5 /\
    ~ In e7e5 (legal_moves (board s)) /\
    step' s Tick = Ok s' /\
    board s' = push (board s) e7e5.
Proof.
  cbn zeta. eexists.
  split; [vm_compute; reflexivity|].
  split; [vm_compute; reflexivity|].
  split.
  { intros Hin. apply (proj2 (is_legal_In (R := rules) _ _)) in Hin.
    vm_compute in Hin. discriminate. }
  split; [vm_compute; reflexivity|].
  vm_compute. reflexivity.
Qed.

(** X22 on the opening move e2-e4. *)
Lemma click_moves_are_validated_witness :
  RulesSpec rules /\
  exists s',
    on_click true seconds (after [click e2]) (pixel e4) = Ok s' /\
    In e2e4 (legal_moves start) /\
    board s' = push start e2e4.
Proof.
  split; [exact MiniChess_rules_spec|].
  destruct (click_moves_are_validated true seconds MiniChess_rules_spec)
    as [Hclick _].
  assert (E : exists s', on_click true seconds (after [click e2]) (pixel e4) = Ok s')
    by (vm_compute; eexists; reflexivity).
  destruct E as [s' E]. exists s'. split; [exact E|].
  destruct (Hclick _ _ _ E) as [[Hnone _] | (mv & Hsub & Hin & Hb & _)].
  - vm_compute in Hnone. discriminate.
  - vm_compute in Hsub. injection Hsub as <-. split; [exact Hin | exact Hb].
Defined.

(** C4 on the starting position: e2 is selected, the click on e5 asks for
    e2-e5. *)
Lemma illegal_click_changes_nothing_witness :
  let s := after [click e2] in
  reachable true book_engine seconds s /\
  selected_sq s = Some e2 /\
  0 <= fst (pixel e5) < BOARD_SIZE /\ 0 <= snd (pixel e5) < BOARD_SIZE /\
  ~ In (mkMove e2 (clicked_square (pixel e5)) None) (legal_moves (board s)) /\
  exists s',
    on_click true seconds s (pixel e5) = Ok s' /\
    board s' = board s /\ game_clock s' = game_clock s /\
    move_log s' = move_log s /\ selected_sq s' = None.
Proof.
  cbn zeta.
  assert (Hr : reachable true book_engine seconds (after [click e2])).
  { exists [click e2]. vm_compute. reflexivity. }
  assert (Hs : selected_sq (after [click e2]) = Some e2) by (vm_compute; reflexivity).
  assert (Hi : ~ In (mkMove e2 (clicked_square (pixel e5)) None)
                    (legal_moves (board (after [click e2])))).
  { intros Hin. apply (proj2 (is_legal_In (R := rules) _ _)) in Hin.
    vm_compute in Hin. discriminate. }
  assert (Hx : 0 <= fst (pixel e5) < BOARD_SIZE)
    by (cbv; split; [discriminate | reflexivity]).
  assert (Hy : 0 <= snd (pixel e5) < BOARD_SIZE)
    by (cbv; split; [discriminate | reflexivity]).
  split; [exact Hr|]. split; [exact Hs|].
  split; [exact Hx|]. split; [exact Hy|]. split; [exact Hi|].
  destruct (illegal_click_changes_nothing true book_engine seconds
              (after [click e2]) (pixel e5) e2 Hr Hs Hx Hy Hi)
    as (s' & Hc & Hb & Hk & Hl & Hsel & _).
  exists s'. auto.
Defined.

(** C7 on the pawn ending: e7-e8 without a promotion piece. *)
Lemma default_promotion_to_queen_witness :
  let s := set_board session pawn_ending in
  let move := mkMove e7 e8 None in
  piece_at (board s) (from_square move) = Some (mkPiece PAWN WHITE) /\
  square_rank (to_square move) = 7 /\
  exists s',
    make_move true seconds s move = Ok s' /\
    at_ (board s') e8 = Some (mkPiece QUEEN WHITE) /\
    last_move s' = Some (mkMove e7 e8 (Some QUEEN)) /\
    ScrollableMoveLog.moves (move_log s')
    = [ScrollableMoveLog.mkEntry 1 "e8=Q" ""].
Proof.
  cbn zeta. split; [reflexivity|]. split; [reflexivity|].
  destruct (default_promotion_to_queen true seconds
              (set_board session pawn_ending) (mkMove e7 e8 None)
              (mkPiece PAWN WHITE))
    as (s' & Hmk & _ & Hb & Hl & Hlog);
    [reflexivity | reflexivity | right; reflexivity | reflexivity |].
  exists s'. split; [exact Hmk|].
  rewrite Hb, Hl, Hlog. repeat split.
Defined.


End Games.

(** * Further properties of the code *)

(** ** The clock *)

Section ClockAccounting.

Import Clock.

Lemma remaining_stop_turn_other c side now who :
  who <> side -> remaining (stop_turn c side now) who = remaining c who.
Proof.
  intros Hne. unfold stop_turn.
  destruct side, who; try reflexivity; exfalso; apply Hne; reflexivity.
Qed.

Lemma run_app c ops1 ops2 : run c (ops1 ++ ops2) = run (run c ops1) ops2.
Proof. unfold run. apply fold_left_app. Qed.

Lemma int_floor x : 0 <= Qnum x -> int x = Qfloor x.
Proof.
  destruct x as [n d]. unfold int, Qfloor. cbn. intros Hn.
  apply Z.quot_div_nonneg; lia.
Qed.

End ClockAccounting.

(** X1: over any sequence of turns, each a [start_turn()] followed by a
    [stop_turn(side)], a side's remaining time ends at its initial value
    minus the thinking time of its own turns; the turns of the other side
    cost it nothing. *)
Theorem paired_turns_accounting (c : Clock.t) (turns : list (Color * Q * Q))
  (side : Color) :
  (Clock.remaining (Clock.run c (Clock.turn_ops turns)) side
   == Clock.remaining c side - Clock.charged side turns)%Q.
Proof.
  revert c. induction turns as [|[[s t0] t1] rest IH]; intros c.
  - cbn. lra.
  - change (Clock.turn_ops ((s, t0, t1) :: rest))
      with ([Clock.StartTurn t0; Clock.StopTurn s t1] ++ Clock.turn_ops rest).
    rewrite run_app, IH. cbn [Clock.run fold_left Clock.apply Clock.charged].
    destruct (Bool.eqb s side) eqn:E.
    + apply Bool.eqb_prop in E. subst s.
      rewrite remaining_stop_turn_same, remaining_start_turn. cbn. lra.
    + rewrite remaining_stop_turn_other, remaining_start_turn.
      * lra.
      * intros ->. rewrite Bool.eqb_reflx in E. discriminate.
Qed.

(** X2: [flag()] after a [stop_turn(side)] is true exactly when the time
    elapsed since [last_tick] uses up all that [side] had left, or the other
    side was already at or below zero. *)
Theorem flag_after_stop_turn (c : Clock.t) (side : Color) (now : Q) :
  Clock.flag (Clock.stop_turn c side now) = true <->
  (Clock.remaining c side <= now - Clock.last_tick c)%Q \/
  (Clock.remaining c (negb side) <= 0)%Q.
Proof.
  rewrite flag_true_iff. split.
  - intros [who H]. destruct (Bool.bool_dec who side) as [-> | Hne].
    + rewrite remaining_stop_turn_same in H. left. lra.
    + rewrite remaining_stop_turn_other in H by exact Hne. right.
      replace (negb side) with who
        by (destruct who, side; try reflexivity; exfalso; apply Hne; reflexivity).
      exact H.
  - intros [H | H].
    + exists side. rewrite remaining_stop_turn_same. lra.
    + exists (negb side). rewrite remaining_stop_turn_other; [exact H|].
      destruct side; discriminate.
Qed.

(** X3: while a side's stored time is not negative, [draw] shows it rounded
    down to whole seconds; and below one hour the minute and second fields
    of the "%M:%S" text give those seconds back. *)
Theorem draw_shows_floor (c : Clock.t) (side : Color) :
  (0 <= Clock.remaining c side)%Q ->
  (inject_Z (Clock.draw_secs c side) <= Clock.remaining c side)%Q /\
  (Clock.remaining c side < inject_Z (Clock.draw_secs c side + 1))%Q /\
  ((Clock.remaining c side < 3600)%Q ->
   let (m, s) := Clock.draw_min_sec c side in
   0 <= m < 60 /\ 0 <= s < 60 /\ 60 * m + s = Clock.draw_secs c side).
Proof.
  intros Hpos. unfold Clock.draw_min_sec, Clock.draw_secs.
  assert (Hn : 0 <= Qnum (Clock.remaining c side)).
  { unfold Qle in Hpos. cbn in Hpos. lia. }
  rewrite (int_floor _ Hn).
  pose proof (Qfloor_le (Clock.remaining c side)) as Hlo.
  pose proof (Qlt_floor (Clock.remaining c side)) as Hhi.
  assert (H0 : 0 <= Qfloor (Clock.remaining c side)).
  { change 0 with (Qfloor 0). apply Qfloor_resp_le. exact Hpos. }
  rewrite Z.max_r by exact H0.
  split; [exact Hlo|]. split; [exact Hhi|].
  intros Hlt.
  assert (H1 : Qfloor (Clock.remaining c side) < 3600).
  { destruct (Z_lt_le_dec (Qfloor (Clock.remaining c side)) 3600) as [Hl|Hg];
      [exact Hl|].
    exfalso. rewrite Zle_Qle in Hg.
    change (inject_Z 3600) with 3600%Q in Hg. lra. }
  set (f := Qfloor (Clock.remaining c side)) in *.
  assert (f / 60 < 60) by (apply Z.div_lt_upper_bound; lia).
  assert (0 <= f / 60) by (apply Z.div_pos; lia).
  rewrite (Z.mod_small (f / 60) 60) by lia.
  pose proof (Z.mod_pos_bound f 60 ltac:(lia)).
  pose proof (Z.div_mod f 60 ltac:(lia)).
  repeat split; lia.
Qed.

(** A clock with 83.5 s left for White shows 01:23. *)
Lemma draw_shows_floor_witness :
  let c := Clock.mk (167 # 2) 300 0 in
  (0 <= Clock.remaining c WHITE)%Q /\
  Clock.draw_secs c WHITE = 83 /\
  Clock.draw_min_sec c WHITE = (1, 23) /\
  (inject_Z (Clock.draw_secs c WHITE) <= Clock.remaining c WHITE)%Q.
Proof.
  cbn zeta.
  assert (H : (0 <= Clock.remaining (Clock.mk (167 # 2) 300 0) WHITE)%Q)
    by (unfold Qle; cbn; lia).
  split; [exact H|]. split; [reflexivity|]. split; [reflexivity|].
  exact (proj1 (draw_shows_floor (Clock.mk (167 # 2) 300 0) WHITE H)).
Defined.

(** ** The move log *)

Section MoveLogRows.

Import ScrollableMoveLog.

Lemma add_move_white g san :
  let g' := add_move g san true in
  moves g' = moves g ++ [mkEntry (current_move_number g) san EmptyString] /\
  current_move_number g' = current_move_number g /\
  waiting_for_black g' = true.
Proof. repeat split. Qed.

Lemma set_last_black_app pre e san :
  set_last_black (pre ++ [e]) san = pre ++ [mkEntry (number e) (white e) san].
Proof.
  induction pre as [|a pre IH]; [reflexivity|].
  cbn [app set_last_black]. rewrite IH.
  destruct (pre ++ [e]) eqn:E; [|reflexivity].
  destruct pre; discriminate.
Qed.

Lemma add_move_black_waiting g pre e san :
  waiting_for_black g = true -> moves g = pre ++ [e] ->
  let g' := add_move g san false in
  moves g' = pre ++ [mkEntry (number e) (white e) san] /\
  current_move_number g' = current_move_number g + 1 /\
  waiting_for_black g' = false.
Proof.
  intros Hw Hm. cbn zeta. unfold add_move. rewrite Hw, Hm.
  replace (is_empty (pre ++ [e])) with false by (destruct pre; reflexivity).
  cbn. rewrite set_last_black_app. repeat split.
Qed.

Lemma add_move_black_alone g san :
  waiting_for_black g = false ->
  let g' := add_move g san false in
  moves g' = moves g ++ [mkEntry (current_move_number g) EmptyString san] /\
  current_move_number g' = current_move_number g + 1 /\
  waiting_for_black g' = false.
Proof.
  intros Hw. cbn zeta. unfold add_move. rewrite Hw. cbn. repeat split.
Qed.

(** Both phases of an alternating run at once: White to append on a log
    not awaiting Black, and Black to append on a log whose last row is
    White's. *)
Lemma add_all_rows sans :
  (forall g, waiting_for_black g = false ->
     let g' := add_all g sans true in
     moves g' = moves g ++ rows_of (current_move_number g) sans /\
     current_move_number g'
     = current_move_number g + Z.of_nat (Nat.div2 (List.length sans)) /\
     waiting_for_black g' = Nat.odd (List.length sans)) /\
  (forall g pre w,
     waiting_for_black g = true ->
     moves g = pre ++ [mkEntry (current_move_number g) w EmptyString] ->
     let g' := add_all g sans false in
     moves g' = pre ++ rows_of (current_move_number g) (w :: sans) /\
     current_move_number g'
     = current_move_number g + Z.of_nat (Nat.div2 (S (List.length sans))) /\
     waiting_for_black g' = Nat.even (List.length sans)).
Proof.
  induction sans as [|s rest [IHw IHb]]; split.
  - intros g Hw. cbn. rewrite app_nil_r, Z.add_0_r. auto.
  - intros g pre w Hw Hm. cbn. rewrite Z.add_0_r. auto.
  - intros g Hw. cbn [add_all negb].
    destruct (add_move_white g s) as (Hm1 & Hc1 & Hw1).
    rewrite <- Hc1 in Hm1.
    destruct (IHb _ _ _ Hw1 Hm1) as (Hm & Hc & Hwb).
    rewrite Hc1 in Hm, Hc. cbn [List.length].
    rewrite Nat.odd_succ. auto.
  - intros g pre w Hw Hm. cbn [add_all negb].
    destruct (add_move_black_waiting g pre _ s Hw Hm) as (Hm1 & Hc1 & Hw1).
    cbn [number white] in Hm1.
    destruct (IHw _ Hw1) as (Hm2 & Hc2 & Hw2).
    rewrite Hm1, Hc1 in Hm2. rewrite Hc1 in Hc2.
    rewrite <- app_assoc in Hm2. cbn [app] in Hm2.
    cbn [List.length]. rewrite Nat.even_succ.
    split; [exact Hm2|]. split; [|exact Hw2].
    rewrite Hc2. cbn [Nat.div2]. lia.
Qed.

Lemma same_frame_apply g0 g o : same_frame g0 g -> same_frame g0 (apply g o).
Proof.
  intros (Hr & Hl & Hv). destruct o as [san iw| |ey mouse]; cbn [apply].
  - unfold add_move.
    destruct iw; [|destruct (waiting_for_black g && negb (is_empty (moves g)))];
      repeat split; assumption.
  - repeat split; assumption.
  - unfold handle_mouse_wheel. destruct (collidepoint (rect g) mouse);
      repeat split; assumption.
Qed.

Lemma same_frame_run ops : forall g0 g, same_frame g0 g -> same_frame g0 (run g ops).
Proof.
  induction ops as [|o rest IH]; intros g0 g H; [exact H|].
  cbn [run fold_left]. apply IH. now apply same_frame_apply.
Qed.

Lemma In_range a b i : In i (range a b) <-> a <= i < b.
Proof.
  unfold range. rewrite in_map_iff. split.
  - intros (k & <- & Hk). apply in_seq in Hk. lia.
  - intros H. exists (Z.to_nat (i - a)). split; [lia|].
    apply in_seq. lia.
Qed.

Lemma getitem_in_range l i :
  0 <= i < Z.of_nat (List.length l) -> exists e, getitem l i = Some e.
Proof.
  intros H. unfold getitem. replace (0 <=? i) with true by (symmetry; lia).
  destruct (nth_error l (Z.to_nat i)) as [e|] eqn:E; [now exists e|].
  apply nth_error_None in E. lia.
Qed.

Lemma draw_loop_total g start y0 ay ab idx :
  (forall i, In i idx -> 0 <= i < Z.of_nat (List.length (moves g))) ->
  exists rows,
    draw_loop g start y0 ay ab idx = Some rows /\
    forall i e, In i idx -> getitem (moves g) i = Some e ->
      let y := y0 + (i - start) * line_height g in
      ay <= y < ab -> In (e, y) rows.
Proof.
  induction idx as [|i rest IH]; intros Hidx.
  - exists []. split; [reflexivity|]. intros i e [].
  - destruct IH as (rows & Hrows & Hin).
    { intros j Hj. apply Hidx. now right. }
    destruct (getitem_in_range (moves g) i) as [e He].
    { apply Hidx. now left. }
    cbn [draw_loop]. rewrite He, Hrows. eexists. split; [reflexivity|].
    intros j e' [<- | Hj] Hget Hy.
    + assert (e' = e) by congruence. subst e'.
      replace ((ay <=? y0 + (i - start) * line_height g) &&
               (y0 + (i - start) * line_height g <? ab)) with true
        by (symmetry; apply andb_true_iff; split; [apply Z.leb_le | apply Z.ltb_lt];
            lia).
      now left.
    + destruct ((ay <=? _) && (_ <? ab)); [right|]; now apply Hin.
Qed.

End MoveLogRows.

(** X4: starting from a cleared log, appending notations alternately, White
    first, gives rows numbered 1, 2, ... holding the notations two by two in
    order; the counter stands one past the last complete row and Black is
    awaited exactly after an odd number of appends. *)
Theorem alternating_appends_fill_rows (g0 : ScrollableMoveLog.t) (sans : list string) :
  let g := ScrollableMoveLog.add_all (ScrollableMoveLog.clear g0) sans true in
  ScrollableMoveLog.moves g = ScrollableMoveLog.rows_of 1 sans /\
  ScrollableMoveLog.current_move_number g
  = 1 + Z.of_nat (Nat.div2 (List.length sans)) /\
  ScrollableMoveLog.waiting_for_black g = Nat.odd (List.length sans).
Proof.
  exact (proj1 (add_all_rows sans) (ScrollableMoveLog.clear g0) eq_refl).
Qed.

(** X5: whatever was appended or scrolled since the log was created,
    [clear()] puts it back in the state [__init__] left it in. *)
Theorem clear_restores_init (x y w h : Z) (ops : list ScrollableMoveLog.op) :
  ScrollableMoveLog.clear
    (ScrollableMoveLog.run (ScrollableMoveLog.init x y w h) ops)
  = ScrollableMoveLog.init x y w h.
Proof.
  destruct (same_frame_run ops (ScrollableMoveLog.init x y w h)
              (ScrollableMoveLog.init x y w h)) as (Hr & Hl & Hv).
  { repeat split. }
  unfold ScrollableMoveLog.clear. rewrite Hr, Hl, Hv. reflexivity.
Qed.

Section MoveLogDrawing.

Import ScrollableMoveLog.

Lemma set_last_black_length l san :
  List.length (set_last_black l san) = List.length l.
Proof.
  induction l as [|a l IH]; [reflexivity|].
  cbn [set_last_black]. destruct l; [reflexivity|].
  cbn [List.length] in *. now rewrite IH.
Qed.

Lemma add_move_length g san iw :
  (1 <= List.length (moves (add_move g san iw)))%nat /\
  (List.length (moves g) <= List.length (moves (add_move g san iw)))%nat.
Proof.
  unfold add_move.
  destruct iw; [|destruct (waiting_for_black g && negb (is_empty (moves g))) eqn:E];
    cbn [_auto_scroll_to_bottom _update_scroll_limits moves];
    rewrite ?length_app, ?set_last_black_length; cbn [List.length]; try lia.
  apply andb_true_iff in E. destruct E as [_ E].
  destruct (moves g); [discriminate | cbn [List.length]; lia].
Qed.

(** What holds of every log the program can build. *)
Lemma built_log_facts x y w h ops :
  let g := run (init x y w h) ops in
  rect g = mkRect x y w h /\ line_height g = 18 /\
  visible_lines g = (h - 60) / 18 /\
  0 <= scroll_y g <= max_scroll g /\ max_scroll g <= scroll_limit g.
Proof.
  cbn zeta.
  destruct (same_frame_run ops (init x y w h) (init x y w h)) as (Hr & Hl & Hv);
    [repeat split|].
  destruct (scroll_inv_run ops _ (scroll_inv_init x y w h)) as (_ & Hy & Hm).
  repeat split; try assumption; lia.
Qed.

Lemma draw_rows_total g :
  line_height g = 18 -> 0 <= scroll_y g ->
  exists rows,
    draw_rows g = Some rows /\
    forall i e,
      scroll_y g / 18 <= i
      < Z.min (Z.of_nat (List.length (moves g)))
              (scroll_y g / 18 + visible_lines g + 2) ->
      getitem (moves g) i = Some e ->
      let yy := rect_y (rect g) + 50 - scroll_y g mod 18
                + (i - scroll_y g / 18) * 18 in
      rect_y (rect g) + 50 <= yy < rect_y (rect g) + 50 + (rect_h (rect g) - 50) ->
      In (e, yy) rows.
Proof.
  intros Hl Hy. unfold draw_rows. rewrite Hl.
  assert (0 <= scroll_y g / 18) by (apply Z.div_pos; lia).
  destruct (draw_loop_total g (scroll_y g / 18)
              (rect_y (rect g) + 50 - scroll_y g mod 18)
              (rect_y (rect g) + 50)
              (rect_y (rect g) + 50 + (rect_h (rect g) - 50))
              (range (scroll_y g / 18)
                 (Z.min (Z.of_nat (List.length (moves g)))
                        (scroll_y g / 18 + visible_lines g + 2))))
    as (rows & Hrows & Hin).
  { intros i Hi. apply In_range in Hi. lia. }
  exists rows. split; [exact Hrows|].
  intros i e Hi Hget. cbn zeta. intros Hyy.
  specialize (Hin i e (proj2 (In_range _ _ _) Hi) Hget).
  cbn zeta in Hin. rewrite Hl in Hin. apply Hin. exact Hyy.
Qed.

End MoveLogDrawing.

(** X6: on every log the program can build, the row loop of [draw] indexes
    [self.moves] inside its bounds: no [IndexError], and no wrap-around from
    a negative index, since the first index [scroll_y // line_height] is
    never negative and the last is below [len(self.moves)]. *)
Theorem draw_indexes_in_bounds (x y w h : Z) (ops : list ScrollableMoveLog.op) :
  let g := ScrollableMoveLog.run (ScrollableMoveLog.init x y w h) ops in
  let start := ScrollableMoveLog.scroll_y g / ScrollableMoveLog.line_height g in
  let stop := Z.min (Z.of_nat (List.length (ScrollableMoveLog.moves g)))
                    (start + ScrollableMoveLog.visible_lines g + 2) in
  (forall i, In i (ScrollableMoveLog.range start stop) ->
     0 <= i < Z.of_nat (List.length (ScrollableMoveLog.moves g))) /\
  exists rows, ScrollableMoveLog.draw_rows g = Some rows.
Proof.
  cbn zeta.
  destruct (built_log_facts x y w h ops) as (_ & Hl & _ & Hy & _).
  cbn zeta in Hl, Hy. split.
  - intros i Hi. apply In_range in Hi. rewrite Hl in Hi.
    assert (0 <= ScrollableMoveLog.scroll_y
                   (ScrollableMoveLog.run (ScrollableMoveLog.init x y w h) ops) / 18)
      by (apply Z.div_pos; lia).
    lia.
  - destruct (draw_rows_total _ Hl (proj1 Hy)) as (rows & Hrows & _).
    now exists rows.
Qed.

(** X7: if the log is at least 78 pixels high (one visible line or more),
    then right after any [add_move] the newest row, [self.moves[-1]], is
    among the rows [draw] renders. *)
Theorem newest_row_is_drawn (x y w h : Z) (ops : list ScrollableMoveLog.op)
  (san : string) (is_white : bool) :
  78 <= h ->
  let g := ScrollableMoveLog.add_move
             (ScrollableMoveLog.run (ScrollableMoveLog.init x y w h) ops)
             san is_white in
  exists rows e yy,
    ScrollableMoveLog.draw_rows g = Some rows /\
    ScrollableMoveLog.getitem (ScrollableMoveLog.moves g) (-1) = Some e /\
    In (e, yy) rows.
Proof.
  intros Hh. cbn zeta.
  pose proof (built_log_facts x y w h
                (ops ++ [ScrollableMoveLog.AddMove san is_white])) as Hf.
  cbn zeta in Hf. unfold ScrollableMoveLog.run in Hf.
  rewrite fold_left_app in Hf. cbn [fold_left ScrollableMoveLog.apply] in Hf.
  fold (ScrollableMoveLog.run (ScrollableMoveLog.init x y w h) ops) in Hf.
  set (g0 := ScrollableMoveLog.run (ScrollableMoveLog.init x y w h) ops) in *.
  destruct Hf as (Hr & Hl & Hv & Hy & _).
  destruct (add_move_scroll g0 san is_white) as [Hsy Hms]. cbn zeta in Hsy, Hms.
  destruct (add_move_length g0 san is_white) as [Hlen _].
  set (g := ScrollableMoveLog.add_move g0 san is_white) in *.
  unfold ScrollableMoveLog.scroll_limit in Hms. rewrite Hl, Hv in Hms.
  set (n := Z.of_nat (List.length (ScrollableMoveLog.moves g))) in *.
  set (v := (h - 60) / 18) in *.
  assert (Hn : 1 <= n) by (subst n; lia).
  assert (Hv1 : 1 <= v) by (subst v; apply Z.div_le_lower_bound; lia).
  assert (Hv18 : v * 18 <= h - 60)
    by (subst v; pose proof (Z.mul_div_le (h - 60) 18 ltac:(lia)); lia).
  assert (Hsc : ScrollableMoveLog.scroll_y g = Z.max 0 (n - v) * 18) by congruence.
  assert (Hdiv : ScrollableMoveLog.scroll_y g / 18 = Z.max 0 (n - v))
    by (rewrite Hsc; apply Z.div_mul; lia).
  assert (Hmod : ScrollableMoveLog.scroll_y g mod 18 = 0)
    by (rewrite Hsc; apply Z.mod_mul; lia).
  destruct (draw_rows_total g Hl (proj1 Hy)) as (rows & Hrows & Hin).
  destruct (getitem_in_range (ScrollableMoveLog.moves g) (n - 1)) as [e He];
    [fold n; lia|].
  exists rows, e. eexists. split; [exact Hrows|]. split.
  - unfold ScrollableMoveLog.getitem in *. fold n in He |- *.
    replace (0 <=? -1) with false by reflexivity.
    replace (0 <=? n + -1) with true by (symmetry; lia).
    replace (0 <=? n - 1) with true in He by (symmetry; lia).
    replace (n + -1) with (n - 1) by lia. exact He.
  - apply (Hin (n - 1) e); [fold n; rewrite Hdiv, Hv; lia | exact He |].
    rewrite Hdiv, Hmod, Hr. cbn [ScrollableMoveLog.rect_y ScrollableMoveLog.rect_h].
    lia.
Qed.

(** A log of the program's size, after a first move. *)
Lemma newest_row_is_drawn_witness :
  78 <= 280 /\
  exists rows e yy,
    ScrollableMoveLog.draw_rows
      (ScrollableMoveLog.add_move
         (ScrollableMoveLog.run (ScrollableMoveLog.init 660 180 180 280) [])
         "e4" true) = Some rows /\
    ScrollableMoveLog.getitem
      (ScrollableMoveLog.moves
         (ScrollableMoveLog.add_move
            (ScrollableMoveLog.run (ScrollableMoveLog.init 660 180 180 280) [])
            "e4" true)) (-1) = Some e /\
    In (e, yy) rows.
Proof.
  assert (H : 78 <= 280) by lia.
  split; [exact H|].
  exact (newest_row_is_drawn 660 180 180 280 [] "e4" true H).
Defined.

(** ** The controller *)

Section ControllerSteps.

Import ChessGUI.

Context {Board : Type} {R : Rules Board}.
Variable engine_ok : bool.
Variable play : Board -> option Move.
Variable wall : nat -> Q.

#[local] Abbreviation maybe_start_engine_think := (maybe_start_engine_think engine_ok).
#[local] Abbreviation make_move := (make_move engine_ok wall).
#[local] Abbreviation on_click := (on_click engine_ok wall).
#[local] Abbreviation handle_engine := (handle_engine engine_ok wall).
#[local] Abbreviation handle_event := (handle_event engine_ok wall).
#[local] Abbreviation new_game := (new_game engine_ok wall).
#[local] Abbreviation change_mode := (change_mode engine_ok wall).
#[local] Abbreviation step := (step engine_ok play wall).
#[local] Abbreviation run := (run engine_ok play wall).
#[local] Abbreviation init := (init engine_ok wall).
#[local] Abbreviation reachable := (reachable engine_ok play wall).
#[local] Abbreviation transition := (transition engine_ok play wall).

(** Every successful step has one of the listed shapes. *)
Lemma step_transition s a s' : step s a = Ok s' -> transition s a s'.
Proof.
  destruct a as [e| | | |]; cbn [ChessGUI.step].
  - destruct e as [|k|ey mouse|button pos]; cbn [ChessGUI.handle_event].
    + intros [= <-]. constructor.
    + destruct k; intros [= <-]; constructor.
    + intros [= <-]. constructor.
    + destruct (button =? 1) eqn:Hb; [|intros [= <-]; constructor].
      apply Z.eqb_eq in Hb. subst button.
      destruct (ScrollableMoveLog.collidepoint audio_btn_rect pos);
        [intros [= <-]; constructor|].
      intros Hclick.
      pose proof (on_click_cases engine_ok wall s pos) as Hc.
      unfold ChessGUI.on_click in Hclick. unfold submitted_move in Hc.
      destruct (Mode_eqb (mode s) ENGINE_VS_ENGINE) eqn:Hm;
        [injection Hclick as <-; constructor|].
      destruct ((BOARD_SIZE <=? fst pos) || (BOARD_SIZE <=? snd pos)) eqn:Hp;
        [injection Hclick as <-; constructor|].
      destruct (negb (square_in_table (clicked_square pos))) eqn:Hq;
        [discriminate|].
      destruct (selected_sq s) as [sel|] eqn:Hsel.
      * destruct (is_legal (board s) (mkMove sel (clicked_square pos) None)) eqn:Hl.
        -- apply (tr_click_move _ _ _ _ pos sel); [exact Hsel | | exact Hclick].
           unfold submitted_move. now rewrite Hm, Hp, Hq, Hsel, Hl.
        -- injection Hclick as <-. constructor.
      * destruct (piece_at (board s) (clicked_square pos)) as [piece|] eqn:Hpc;
          [|injection Hclick as <-; constructor].
        destruct (may_select s piece) eqn:Hms;
          injection Hclick as <-; [|constructor].
        now apply tr_select with (piece := piece).
  - unfold ChessGUI.handle_engine.
    destruct (pending_engine_move s) as [m|] eqn:Hp; [|intros [= <-]; constructor].
    destruct (Move_bool m) eqn:Hb; [|intros [= <-]; constructor].
    destruct (make_move s m) as [s2|] eqn:Hmk; [|discriminate].
    intros [= <-]. now apply tr_engine_move with (m := m).
  - intros [= <-]. constructor.
  - intros [= <-]. constructor.
  - intros [= <-]. constructor.
Qed.

(** An invariant of the initial state kept by every step holds of every
    reachable state. *)
Lemma reachable_invariant (P : @t Board -> Prop) :
  P init ->
  (forall s a s', P s -> step s a = Ok s' -> P s') ->
  forall s, reachable s -> P s.
Proof.
  intros Hinit Hstep s [trace Hrun].
  revert Hrun. generalize init at 1 as s0, Hinit. 
  induction trace as [|a rest IH]; intros s0 H0 Hrun; cbn in Hrun.
  - now injection Hrun as <-.
  - destruct (step s0 a) as [s1|] eqn:Hs; [|discriminate]. eauto.
Qed.

(** [make_move], when it returns, is [maybe_start_engine_think] applied to
    a state in which everything else has been done. *)
Lemma make_move_inv s move s' :
  make_move s move = Ok s' ->
  let move' := if promotion_defaulted (board s) move
               then with_promotion move QUEEN else move in
  exists x,
    s' = maybe_start_engine_think x /\
    piece_at (board s) (from_square move) <> None /\
    board x = push (board s) move' /\
    mode x = mode s /\ engine_thread x = engine_thread s /\
    pending_engine_move x = pending_engine_move s /\
    selected_sq x = None /\ valid_dest_sqs x = [] /\
    move_log x = ScrollableMoveLog.add_move (move_log s) (san (board s) move')
                   (Bool.eqb (turn (board s)) WHITE) /\
    game_clock x
    = (if Mode_eqb (mode s) ANALYSIS
       then Clock.stop_turn (game_clock s) (turn (board s)) (wall (reads s))
       else Clock.start_turn
              (Clock.stop_turn (game_clock s) (turn (board s)) (wall (reads s)))
              (wall (S (reads s)))) /\
    reads x = (if Mode_eqb (mode s) ANALYSIS then S (reads s) else S (S (reads s))).
Proof.
  unfold ChessGUI.make_move. rewrite !board_clock_stop_turn.
  destruct (piece_at (board s) (from_square move)) as [pc|]; [|discriminate].
  intros [= <-]. cbn zeta. eexists. split; [reflexivity|].
  split; [discriminate|].
  destruct (promotion_defaulted (board s) move);
    destruct (Mode_eqb (mode s) ANALYSIS) eqn:Ha; cbn; rewrite ?Ha; cbn;
    repeat split.
Qed.

(** What [maybe_start_engine_think] does to the thread handle. *)
Lemma maybe_start_thread s :
  let s' := maybe_start_engine_think s in
  engine_thread s' = engine_thread s \/
  (engine_thread s = None /\ engine_thread s' = Some Started /\
   engine_ok = true /\ is_game_over (board s) = false /\
   engine_to_move (turn (board s)) (mode s) = true).
Proof.
  cbn zeta. unfold ChessGUI.maybe_start_engine_think.
  destruct engine_ok; cbn [negb]; [|now left].
  destruct (engine_thread s) eqn:Ht; [now left|].
  destruct (is_game_over (board s)) eqn:Hg; [now left|].
  destruct (engine_to_move (turn (board s)) (mode s)) eqn:He; [|now left].
  right. cbn. auto.
Qed.

Lemma may_select_not_engine (s : @t Board) piece :
  may_select s piece = true ->
  engine_to_move (turn (board s)) (mode s) = false.
Proof.
  unfold may_select, engine_to_move.
  destruct (turn (board s)), (color piece), (mode s); cbn; congruence.
Qed.

Lemma selection_ok_init : selection_ok init.
Proof.
  unfold selection_ok, ChessGUI.init.
  match goal with
  | |- context [ChessGUI.maybe_start_engine_think _ ?x] =>
      destruct (maybe_start_frame engine_ok x) as (_ & _ & _ & _ & Hs & Hv & _)
  end.
  cbn zeta in Hs, Hv. rewrite Hs, Hv. reflexivity.
Qed.

(** A state with nothing selected and nothing highlighted is coherent. *)
Lemma selection_ok_cleared (s : @t Board) :
  selected_sq s = None -> valid_dest_sqs s = [] -> selection_ok s.
Proof. unfold selection_ok. now intros -> ->. Qed.

Lemma selection_ok_after_move s move s' :
  make_move s move = Ok s' ->
  selected_sq s' = None /\ valid_dest_sqs s' = [].
Proof.
  intros H. destruct (make_move_inv _ _ _ H) as (x & -> & _ & _ & _ & _ & _ & Hs & Hv & _).
  destruct (maybe_start_frame engine_ok x) as (_ & _ & _ & _ & Hs' & Hv' & _).
  cbn zeta in Hs', Hv'. rewrite Hs', Hv'. auto.
Qed.

Lemma selection_ok_step s a s' :
  selection_ok s -> step s a = Ok s' -> selection_ok s'.
Proof.
  intros Hok Hstep. apply step_transition in Hstep.
  destruct Hstep; try exact Hok;
    try (apply selection_ok_cleared; reflexivity).
  - apply selection_ok_cleared; unfold ChessGUI.new_game;
      match goal with
      | |- context [ChessGUI.maybe_start_engine_think _ ?x] =>
          destruct (maybe_start_frame engine_ok x) as (_ & _ & _ & _ & Hs & Hv & _)
      end; cbn zeta in Hs, Hv; rewrite ?Hs, ?Hv; reflexivity.
  - apply selection_ok_cleared; unfold ChessGUI.change_mode;
      match goal with
      | |- context [ChessGUI.maybe_start_engine_think _ ?x] =>
          destruct (maybe_start_frame engine_ok x) as (_ & _ & _ & _ & Hs & Hv & _)
      end; cbn zeta in Hs, Hv; rewrite ?Hs, ?Hv; reflexivity.
  - unfold selection_ok. cbn. split; [|reflexivity].
    exists piece. split; assumption.
  - destruct (selection_ok_after_move _ _ _ H1). now apply selection_ok_cleared.
  - destruct (selection_ok_after_move _ _ _ H1).
    now apply selection_ok_cleared.
  - unfold worker_read. destruct (engine_thread s) as [[]|]; exact Hok.
  - unfold ChessGUI.worker_write. destruct (engine_thread s) as [[]|]; exact Hok.
  - unfold worker_exit. destruct (engine_thread s) as [[]|]; exact Hok.
Qed.

(** X8: in every state the program can reach, the selection is coherent
    with the board.  A selected square holds a piece, it is not the
    engine's turn to move, and the highlighted squares are exactly the
    destinations of the legal moves from the selected square; with nothing
    selected nothing is highlighted. *)
Theorem selection_is_coherent s :
  reachable s ->
  match selected_sq s with
  | Some sq =>
      piece_at (board s) sq <> None /\
      engine_to_move (turn (board s)) (mode s) = false /\
      valid_dest_sqs s
      = map to_square
          (filter (fun m => from_square m =? sq) (legal_moves (board s)))
  | None => valid_dest_sqs s = []
  end.
Proof.
  intros Hr.
  pose proof (reachable_invariant selection_ok
                selection_ok_init selection_ok_step s Hr) as Hok.
  unfold selection_ok in Hok.
  destruct (selected_sq s) as [sq|]; [|exact Hok].
  destruct Hok as [(piece & Hp & Hm) Hv].
  split; [congruence|]. split; [|exact Hv].
  now apply may_select_not_engine with (piece := piece).
Qed.

Lemma click_in_window_does_not_raise (s : @t Board) pos :
  0 <= fst pos -> 0 <= snd pos -> click_raises s pos = false.
Proof.
  intros Hx Hy. unfold click_raises.
  destruct (Mode_eqb (mode s) ENGINE_VS_ENGINE); [reflexivity|].
  destruct ((BOARD_SIZE <=? fst pos) || (BOARD_SIZE <=? snd pos)) eqn:Hb;
    [reflexivity|].
  apply orb_false_iff in Hb. destruct Hb as [Hbx Hby].
  apply Z.leb_gt in Hbx, Hby.
  pose proof (clicked_square_on_board pos (conj Hx Hbx) (conj Hy Hby)) as Hsq.
  replace (square_in_table (clicked_square pos)) with true; [reflexivity|].
  symmetry. unfold square_in_table. apply andb_true_iff.
  split; [apply Z.leb_le | apply Z.ltb_lt]; lia.
Qed.

(** X9: in every state the program can reach, an input event raises only
    if it is a mouse click that decodes to a square outside the library's
    table, which takes a negative coordinate.  So no event whose position
    is inside the window makes [handle_events] raise: the only [make_move]
    it can call starts on the selected square, which holds a piece.  The
    rules library is not assumed to behave in any particular way. *)
Theorem input_never_raises s e :
  reachable s ->
  (in_window e -> exists s', handle_event s e = Ok s') /\
  (handle_event s e = Raised ->
   exists button pos,
     e = MOUSEBUTTONDOWN button pos /\ click_raises s pos = true).
Proof.
  intros Hr.
  pose proof (reachable_invariant selection_ok
                selection_ok_init selection_ok_step s Hr) as Hsel.
  unfold selection_ok in Hsel.
  assert (Hclick : forall pos,
            (exists s', on_click s pos = Ok s') \/
            (on_click s pos = Raised /\ click_raises s pos = true)).
  { intros pos.
    pose proof (on_click_cases engine_ok wall s pos) as Hc.
    destruct (submitted_move s pos) as [mv|] eqn:Hsub.
    - left. rewrite Hc. unfold submitted_move in Hsub.
      destruct (Mode_eqb (mode s) ENGINE_VS_ENGINE); [discriminate|].
      destruct ((BOARD_SIZE <=? fst pos) || (BOARD_SIZE <=? snd pos));
        [discriminate|].
      destruct (negb (square_in_table (clicked_square pos))); [discriminate|].
      destruct (selected_sq s) as [sel|]; [|discriminate].
      destruct (is_legal (board s) _); [|discriminate].
      injection Hsub as <-. destruct Hsel as [(piece & Hpc & _) _].
      assert (Hocc : piece_at (board s) sel <> None) by congruence.
      destruct (make_move_spec engine_ok wall s
                  (mkMove sel (clicked_square pos) None) Hocc) as (s' & Hmk & _).
      now exists s'.
    - destruct (click_raises s pos); [right; auto|].
      left. destruct Hc as (s' & Hs' & _). now exists s'. }
  split.
  - intros Hwin.
    destruct e as [|k|ey mouse|button pos]; cbn [ChessGUI.handle_event];
      try (eexists; reflexivity).
    + destruct k; eexists; reflexivity.
    + destruct (button =? 1); [|eexists; reflexivity].
      destruct (ScrollableMoveLog.collidepoint audio_btn_rect pos);
        [eexists; reflexivity|].
      destruct (Hclick pos) as [Hok | [_ Hraise]]; [exact Hok|].
      cbn in Hwin. destruct Hwin as [Hx Hy].
      rewrite (click_in_window_does_not_raise s pos Hx Hy) in Hraise.
      discriminate.
  - destruct e as [|k|ey mouse|button pos]; cbn [ChessGUI.handle_event];
      try discriminate.
    + destruct k; discriminate.
    + destruct (button =? 1); [|discriminate].
      destruct (ScrollableMoveLog.collidepoint audio_btn_rect pos);
        [discriminate|].
      intros Hraised. exists button, pos. split; [reflexivity|].
      destruct (Hclick pos) as [[s' Hok] | [_ Hraise]]; [congruence | exact Hraise].
Qed.

(** [new_game] and [change_mode] are [maybe_start_engine_think] applied to
    a freshly reset state. *)
Lemma new_game_inv s :
  exists x,
    new_game s = maybe_start_engine_think x /\
    board x = starting_position /\ mode x = mode s /\
    engine_thread x = engine_thread s /\ pending_engine_move x = None /\
    selected_sq x = None /\ valid_dest_sqs x = [] /\ last_move x = None /\
    move_log x = ScrollableMoveLog.clear (move_log s) /\
    game_clock x
    = Clock.start_turn (Clock.init START_TIME (wall (reads s))) (wall (S (reads s))) /\
    reads x = S (S (reads s)).
Proof. eexists. split; [reflexivity|]. cbn. repeat split. Qed.

Lemma change_mode_inv s :
  exists x,
    change_mode s = maybe_start_engine_think x /\
    board x = starting_position /\ mode x = next_mode (mode s) /\
    engine_thread x = engine_thread s /\ pending_engine_move x = None /\
    selected_sq x = None /\ valid_dest_sqs x = [] /\ last_move x = None /\
    move_log x = ScrollableMoveLog.clear (move_log s) /\
    game_clock x
    = Clock.start_turn (Clock.init START_TIME (wall (reads s))) (wall (S (reads s))) /\
    reads x = S (S (reads s)).
Proof. eexists. split; [reflexivity|]. cbn. repeat split. Qed.

Lemma maybe_start_spawn x w :
  engine_thread x = None ->
  engine_thread (maybe_start_engine_think x) = Some w ->
  w = Started /\ engine_ok = true /\
  is_game_over (board (maybe_start_engine_think x)) = false /\
  engine_to_move (turn (board (maybe_start_engine_think x)))
                 (mode (maybe_start_engine_think x)) = true.
Proof.
  intros Hnone Hsome.
  destruct (maybe_start_frame engine_ok x) as (Hb & Hm & _). cbn zeta in Hb, Hm.
  rewrite Hb, Hm.
  destruct (maybe_start_thread x) as [Hsame | (_ & Hst & Hok & Hg & He)].
  - rewrite Hsame, Hnone in Hsome. discriminate.
  - rewrite Hst in Hsome. injection Hsome as <-. auto.
Qed.

Lemma maybe_start_keeps x w :
  engine_thread x = Some w ->
  engine_thread (maybe_start_engine_think x) = Some w.
Proof.
  intros Hw. destruct (maybe_start_thread x) as [Hsame | (Hnone & _)]; congruence.
Qed.

Lemma worker_idle (s : @t Board) :
  engine_thread s = None ->
  worker_read s = s /\ ChessGUI.worker_write engine_ok play s = s /\ worker_exit s = s.
Proof.
  intros H. unfold worker_read, ChessGUI.worker_write, worker_exit.
  now rewrite H.
Qed.

(** X10: a thread is started only by the main loop, only when none is
    alive, and only for an engine-controlled side of a game that is not
    over, with the engine process available.  In particular none is ever
    started in analysis mode or in human-versus-human mode. *)
Theorem thread_started_only_for_engine_turn s a s' w :
  step s a = Ok s' ->
  engine_thread s = None -> engine_thread s' = Some w ->
  w = Started /\ main_loop_action a = true /\ engine_ok = true /\
  is_game_over (board s') = false /\
  engine_to_move (turn (board s')) (mode s') = true /\
  mode s' <> ANALYSIS /\ mode s' <> HUMAN_VS_HUMAN.
Proof.
  intros Hstep Hnone Hsome.
  assert (Hmodes : forall side m, engine_to_move side m = true ->
                                  m <> ANALYSIS /\ m <> HUMAN_VS_HUMAN).
  { intros side m. unfold engine_to_move. destruct side, m; cbn;
      intros; split; congruence. }
  assert (Hmain : forall x,
            engine_thread x = None ->
            engine_thread (maybe_start_engine_think x) = Some w ->
            w = Started /\ engine_ok = true /\
            is_game_over (board (maybe_start_engine_think x)) = false /\
            engine_to_move (turn (board (maybe_start_engine_think x)))
                           (mode (maybe_start_engine_think x)) = true /\
            mode (maybe_start_engine_think x) <> ANALYSIS /\
            mode (maybe_start_engine_think x) <> HUMAN_VS_HUMAN).
  { intros x Hx Hw. destruct (maybe_start_spawn x w Hx Hw) as (H1 & H2 & H3 & H4).
    destruct (Hmodes _ _ H4). auto 10. }
  apply step_transition in Hstep.
  destruct Hstep; try (cbn in Hsome; congruence).
  - destruct (new_game_inv s) as (x & Hx & _ & _ & Ht & _).
    rewrite Hx in *. destruct (Hmain x) as (? & ? & ? & ? & ? & ?);
      try congruence. auto 10.
  - destruct (change_mode_inv s) as (x & Hx & _ & _ & Ht & _).
    rewrite Hx in *. destruct (Hmain x) as (? & ? & ? & ? & ? & ?);
      try congruence. auto 10.
  - destruct (make_move_inv _ _ _ H1) as (x & -> & _ & _ & _ & Ht & _).
    destruct (Hmain x) as (? & ? & ? & ? & ? & ?); try congruence. auto 10.
  - destruct (make_move_inv _ _ _ H1) as (x & -> & _ & _ & _ & Ht & _).
    cbn in Hsome |- *.
    destruct (Hmain x) as (? & ? & ? & ? & ? & ?); try congruence. auto 10.
  - rewrite (proj1 (worker_idle s Hnone)) in Hsome. congruence.
  - rewrite (proj1 (proj2 (worker_idle s Hnone))) in Hsome. congruence.
  - rewrite (proj2 (proj2 (worker_idle s Hnone))) in Hsome. congruence.
Qed.

(** X11: while a thread is alive the main loop leaves it alone: no input
    event and no [handle_engine] call stops it, restarts it or starts a
    second one, not even a new game or a mode change. *)
Theorem live_thread_is_left_alone s a s' w :
  step s a = Ok s' -> main_loop_action a = true ->
  engine_thread s = Some w -> engine_thread s' = Some w.
Proof.
  intros Hstep Hmain Hw. apply step_transition in Hstep.
  destruct Hstep; try discriminate; try exact Hw.
  - destruct (new_game_inv s) as (x & -> & _ & _ & Ht & _).
    apply maybe_start_keeps. congruence.
  - destruct (change_mode_inv s) as (x & -> & _ & _ & Ht & _).
    apply maybe_start_keeps. congruence.
  - destruct (make_move_inv _ _ _ H1) as (x & -> & _ & _ & _ & Ht & _).
    apply maybe_start_keeps. congruence.
  - destruct (make_move_inv _ _ _ H1) as (x & -> & _ & _ & _ & Ht & _).
    cbn. apply maybe_start_keeps. congruence.
Qed.

Lemma maybe_start_without_engine x :
  engine_ok = false -> maybe_start_engine_think x = x.
Proof. intros H. unfold ChessGUI.maybe_start_engine_think. now rewrite H. Qed.

(** X12: when the engine process could not be started, no thread is ever
    created and the pending slot stays empty in every reachable state, so
    [handle_engine] never does anything: engine-controlled turns simply
    never get a move. *)
Theorem without_engine_nothing_is_pending s :
  engine_ok = false -> reachable s ->
  engine_thread s = None /\ pending_engine_move s = None /\
  step s Tick = Ok s.
Proof.
  intros Hoff Hr.
  assert (H : engine_thread s = None /\ pending_engine_move s = None).
  { revert s Hr. apply reachable_invariant.
    - unfold ChessGUI.init. rewrite maybe_start_without_engine by exact Hoff.
      split; reflexivity.
    - intros s a s' [Ht Hp] Hstep. apply step_transition in Hstep.
      destruct Hstep; try (split; assumption).
      + destruct (new_game_inv s) as (x & -> & _ & _ & Hxt & Hxp & _).
        rewrite maybe_start_without_engine by exact Hoff. split; congruence.
      + destruct (change_mode_inv s) as (x & -> & _ & _ & Hxt & Hxp & _).
        rewrite maybe_start_without_engine by exact Hoff. split; congruence.
      + destruct (make_move_inv _ _ _ H1) as (x & -> & _ & _ & _ & Hxt & Hxp & _).
        rewrite maybe_start_without_engine by exact Hoff. split; congruence.
      + congruence.
      + rewrite (proj1 (worker_idle s Ht)). auto.
      + rewrite (proj1 (proj2 (worker_idle s Ht))). auto.
      + rewrite (proj2 (proj2 (worker_idle s Ht))). auto. }
  destruct H as [Ht Hp]. repeat split; try assumption.
  cbn. unfold ChessGUI.handle_engine. now rewrite Hp.
Qed.

Lemma mode_change_mode s : mode (change_mode s) = next_mode (mode s).
Proof.
  destruct (change_mode_inv s) as (x & -> & _ & Hm & _).
  destruct (maybe_start_frame engine_ok x) as (_ & Hm' & _). cbn zeta in Hm'.
  congruence.
Qed.

Lemma mode_iter_change_mode k s :
  mode (Nat.iter k change_mode s) = Nat.iter k next_mode (mode s).
Proof.
  induction k as [|k IH]; [reflexivity|].
  rewrite !Nat.iter_succ. now rewrite mode_change_mode, IH.
Qed.

(** X13: SPACE advances the mode in the order H-H, H-E, E-H, E-E, ANA and
    back to H-H: five mode changes bring back the mode one started from,
    and fewer never do. *)
Theorem five_mode_changes_cycle s :
  mode (change_mode s) = next_mode (mode s) /\
  mode (Nat.iter 5 change_mode s) = mode s /\
  forall k, (0 < k < 5)%nat -> mode (Nat.iter k change_mode s) <> mode s.
Proof.
  split; [apply mode_change_mode|]. split.
  - rewrite mode_iter_change_mode. destruct (mode s); reflexivity.
  - intros k Hk. rewrite mode_iter_change_mode.
    destruct k as [|[|[|[|[|k]]]]]; try lia; destruct (mode s); discriminate.
Qed.

(** X14: N and SPACE both start afresh whatever the state was: the board
    is the starting position, the log is cleared, both sides have
    [START_TIME] seconds and no flag, nothing is selected, remembered or
    pending.  N keeps the mode. *)
Theorem reset_starts_afresh s :
  mode (new_game s) = mode s /\
  forall s', s' = new_game s \/ s' = change_mode s ->
    board s' = starting_position /\
    move_log s' = ScrollableMoveLog.clear (move_log s) /\
    (forall side, Clock.remaining (game_clock s') side = inject_Z START_TIME) /\
    Clock.flag (game_clock s') = false /\
    selected_sq s' = None /\ valid_dest_sqs s' = [] /\
    last_move s' = None /\ pending_engine_move s' = None.
Proof.
  split.
  - destruct (new_game_inv s) as (x & -> & _ & Hm & _).
    destruct (maybe_start_frame engine_ok x) as (_ & Hm' & _). cbn zeta in Hm'.
    congruence.
  - intros s' Hs'.
    assert (exists x,
              s' = maybe_start_engine_think x /\
              board x = starting_position /\
              pending_engine_move x = None /\ selected_sq x = None /\
              valid_dest_sqs x = [] /\ last_move x = None /\
              move_log x = ScrollableMoveLog.clear (move_log s) /\
              game_clock x
              = Clock.start_turn (Clock.init START_TIME (wall (reads s)))
                                 (wall (S (reads s))))
      as (x & -> & Hb & Hp & Hs & Hv & Hl & Hlog & Hc).
    { destruct Hs' as [-> | ->];
        [destruct (new_game_inv s) as (x & ? & ? & ? & ? & ? & ? & ? & ? & ? & ? & ?)
        |destruct (change_mode_inv s) as (x & ? & ? & ? & ? & ? & ? & ? & ? & ? & ? & ?)];
        exists x; auto 10. }
    destruct (maybe_start_frame engine_ok x)
      as (Hb' & _ & Hc' & Hl' & Hsel' & Hv' & Hlm' & Hp' & _).
    cbn zeta in *. rewrite Hb', Hc', Hl', Hsel', Hv', Hlm', Hp', Hc.
    repeat split; try assumption.
    intros side. destruct side; reflexivity.
Qed.

End ControllerSteps.

Section MoveLogNumbering.

Import ScrollableMoveLog.

Lemma numbers_snoc n :
  map (fun k => Z.of_nat k + 1) (seq 0 (S n))
  = map (fun k => Z.of_nat k + 1) (seq 0 n) ++ [Z.of_nat n + 1].
Proof. rewrite seq_S, map_app. reflexivity. Qed.

Lemma well_numbered_clear g : well_numbered (clear g).
Proof. unfold well_numbered, clear. cbn. repeat split. discriminate. Qed.

Lemma well_numbered_init x y w h : well_numbered (init x y w h).
Proof. unfold well_numbered, init. cbn. repeat split. discriminate. Qed.

Lemma well_numbered_white g san :
  well_numbered g -> waiting_for_black g = false ->
  well_numbered (add_move g san true) /\
  waiting_for_black (add_move g san true) = true.
Proof.
  intros (Hn & Hc & _) Hw. rewrite Hw in Hc.
  destruct (add_move_white g san) as (Hm' & Hc' & Hw'). cbn zeta in *.
  split; [|exact Hw']. unfold well_numbered. rewrite Hm', Hc', Hw'.
  rewrite map_app, length_app, Nat.add_1_r, numbers_snoc, Hn. cbn [map number List.length].
  repeat split.
  - f_equal. f_equal. lia.
  - lia.
  - intros _ E. apply app_eq_nil in E. destruct E; discriminate.
Qed.

Lemma well_numbered_black g san :
  well_numbered g -> waiting_for_black g = true ->
  well_numbered (add_move g san false) /\
  waiting_for_black (add_move g san false) = false.
Proof.
  intros (Hn & Hc & Hne) Hw. rewrite Hw in Hc.
  destruct (exists_last (Hne Hw)) as (pre & e & Hm).
  destruct (add_move_black_waiting g pre e san Hw Hm) as (Hm' & Hc' & Hw').
  cbn zeta in *. split; [|exact Hw']. unfold well_numbered.
  rewrite Hm', Hc', Hw'. rewrite Hm in Hn, Hc.
  rewrite map_app, length_app in *. cbn [map number List.length] in *.
  repeat split; [exact Hn | lia | discriminate].
Qed.

Lemma well_numbered_wheel g ey mouse :
  well_numbered g ->
  well_numbered (fst (handle_mouse_wheel g ey mouse)) /\
  waiting_for_black (fst (handle_mouse_wheel g ey mouse)) = waiting_for_black g.
Proof.
  intros H. unfold handle_mouse_wheel.
  destruct (collidepoint (rect g) mouse); cbn [fst]; split; auto.
Qed.

End MoveLogNumbering.

Section ControllerInvariants.

Import ChessGUI.

Context {Board : Type} {R : Rules Board}.
Variable engine_ok : bool.
Variable play : Board -> option Move.
Variable wall : nat -> Q.

#[local] Abbreviation step := (step engine_ok play wall).
#[local] Abbreviation init := (init engine_ok wall).
#[local] Abbreviation reachable := (reachable engine_ok play wall).
#[local] Abbreviation clock_inv := (clock_inv wall).

Lemma log_follows_board_step (HT : TurnSpec R) s a s' :
  log_follows_board s -> step s a = Ok s' -> log_follows_board s'.
Proof.
  intros [Hwn Hw] Hstep.
  assert (Hfresh : forall x,
            board x = starting_position ->
            move_log x = ScrollableMoveLog.clear (move_log s) ->
            log_follows_board (maybe_start_engine_think engine_ok x)).
  { intros x Hb Hl.
    destruct (maybe_start_frame engine_ok x) as (Hb' & _ & _ & Hl' & _).
    cbn zeta in Hb', Hl'. unfold log_follows_board.
    rewrite Hb', Hl', Hb, Hl, (turn_starting HT).
    split; [apply well_numbered_clear | reflexivity]. }
  assert (Hmoved : forall m s2,
            make_move engine_ok wall s m = Ok s2 -> log_follows_board s2).
  { intros m s2 Hmk.
    destruct (make_move_inv engine_ok wall _ _ _ Hmk)
      as (x & -> & _ & Hb & _ & _ & _ & _ & _ & Hl & _).
    cbn zeta in Hb.
    destruct (maybe_start_frame engine_ok x) as (Hb' & _ & _ & Hl' & _).
    cbn zeta in Hb', Hl'. unfold log_follows_board.
    rewrite Hb', Hl', Hb, Hl, (turn_push HT).
    destruct (turn (board s)) eqn:Ht; cbn [negb Bool.eqb WHITE] in *.
    - destruct (well_numbered_white (move_log s) (san (board s)
                  (if promotion_defaulted (board s) m
                   then with_promotion m QUEEN else m)) Hwn Hw); auto.
    - destruct (well_numbered_black (move_log s) (san (board s)
                  (if promotion_defaulted (board s) m
                   then with_promotion m QUEEN else m)) Hwn Hw); auto. }
  apply step_transition in Hstep.
  destruct Hstep;
    first
      [ split; assumption
      | destruct (new_game_inv engine_ok wall s)
          as (x & -> & Hb & _ & _ & _ & _ & _ & _ & Hl & _); now apply Hfresh
      | destruct (change_mode_inv engine_ok wall s)
          as (x & -> & Hb & _ & _ & _ & _ & _ & _ & Hl & _); now apply Hfresh
      | match goal with
        | H : make_move _ _ _ _ = Ok _ |- _ => exact (Hmoved _ _ H)
        end
      | match goal with
        | |- context [ScrollableMoveLog.handle_mouse_wheel _ ?ey ?mouse] =>
            destruct (well_numbered_wheel (move_log s) ey mouse Hwn) as [H1 H2];
            split; cbn; [exact H1 | congruence]
        end
      | unfold worker_read, worker_write, worker_exit;
        destruct (engine_thread s) as [[]|]; split; assumption ].
Qed.

(** X15: given that White moves first and that [push] passes the turn, in
    every state the program can reach the log rows are numbered 1, 2, ...
    without gap or repetition, the counter is one past the last complete
    row, and the log awaits Black's half exactly when Black is to move.  So
    [make_move] never takes the branch of [add_move] that opens a row with
    only Black's notation. *)
Theorem log_rows_follow_the_game (HT : TurnSpec R) s :
  reachable s ->
  map ScrollableMoveLog.number (ScrollableMoveLog.moves (move_log s))
  = map (fun k => Z.of_nat k + 1)
        (seq 0 (List.length (ScrollableMoveLog.moves (move_log s)))) /\
  ScrollableMoveLog.current_move_number (move_log s)
  = Z.of_nat (List.length (ScrollableMoveLog.moves (move_log s)))
    + (if turn (board s) then 1 else 0) /\
  ScrollableMoveLog.waiting_for_black (move_log s) = negb (turn (board s)) /\
  (turn (board s) = BLACK -> ScrollableMoveLog.moves (move_log s) <> []).
Proof.
  intros Hr.
  assert (H : log_follows_board s).
  { revert s Hr. apply reachable_invariant.
    - unfold ChessGUI.init.
      match goal with
      | |- context [maybe_start_engine_think _ ?x] =>
          destruct (maybe_start_frame engine_ok x) as (Hb & _ & _ & Hl & _)
      end.
      cbn zeta in Hb, Hl. unfold log_follows_board. rewrite Hb, Hl. cbn.
      rewrite (turn_starting HT).
      split; [apply well_numbered_init | reflexivity].
    - intros s a s' Hs Hstep. exact (log_follows_board_step HT s a s' Hs Hstep). }
  destruct H as [(Hn & Hc & Hne) Hw]. rewrite Hw in Hc, Hne.
  split; [exact Hn|]. split; [|split; [exact Hw|]].
  - rewrite Hc. destruct (turn (board s)); reflexivity.
  - intros Ht. apply Hne. rewrite Ht. reflexivity.
Qed.

Lemma clock_inv_step (Hwall : nondecreasing wall) s a s' :
  clock_inv s -> step s a = Ok s' -> clock_inv s'.
Proof.
  unfold ChessGUI.clock_inv. intros Hinv Hstep.
  assert (Hfresh : forall x,
            game_clock x
            = Clock.start_turn (Clock.init START_TIME (wall (reads s)))
                               (wall (S (reads s))) ->
            reads x = S (S (reads s)) ->
            (Clock.last_tick (game_clock (maybe_start_engine_think engine_ok x))
             <= wall (reads (maybe_start_engine_think engine_ok x)))%Q).
  { intros x Hc Hrd.
    destruct (maybe_start_frame engine_ok x) as (_ & _ & Hc' & _ & _ & _ & _ & _ & Hr').
    cbn zeta in Hc', Hr'. rewrite Hc', Hr', Hc, Hrd. cbn. apply Hwall. }
  assert (Hmoved : forall m s2,
            make_move engine_ok wall s m = Ok s2 ->
            (Clock.last_tick (game_clock s2) <= wall (reads s2))%Q).
  { intros m s2 Hmk.
    destruct (make_move_inv engine_ok wall _ _ _ Hmk)
      as (x & -> & _ & _ & _ & _ & _ & _ & _ & _ & Hc & Hrd).
    destruct (maybe_start_frame engine_ok x) as (_ & _ & Hc' & _ & _ & _ & _ & _ & Hr').
    cbn zeta in Hc', Hr'. rewrite Hc', Hr', Hc, Hrd.
    destruct (Mode_eqb (mode s) ANALYSIS).
    - rewrite last_tick_stop_turn. pose proof (Hwall (reads s)). lra.
    - cbn. apply Hwall. }
  apply step_transition in Hstep.
  destruct Hstep;
    first
      [ exact Hinv
      | destruct (new_game_inv engine_ok wall s)
          as (x & -> & _ & _ & _ & _ & _ & _ & _ & _ & Hc & Hrd); now apply Hfresh
      | destruct (change_mode_inv engine_ok wall s)
          as (x & -> & _ & _ & _ & _ & _ & _ & _ & _ & Hc & Hrd); now apply Hfresh
      | match goal with
        | H : make_move _ _ _ _ = Ok _ |- _ => exact (Hmoved _ _ H)
        end
      | unfold worker_read, worker_write, worker_exit;
        destruct (engine_thread s) as [[]|]; exact Hinv ].
Qed.

Lemma reachable_clock_inv (Hwall : nondecreasing wall) s :
  reachable s -> clock_inv s.
Proof.
  revert s. apply reachable_invariant.
  - unfold ChessGUI.clock_inv, ChessGUI.init.
    match goal with
    | |- context [maybe_start_engine_think _ ?x] =>
        destruct (maybe_start_frame engine_ok x)
          as (_ & _ & Hc & _ & _ & _ & _ & _ & Hr)
    end.
    cbn zeta in Hc, Hr. rewrite Hc, Hr. cbn. apply Hwall.
  - intros s a s' Hs Hstep. exact (clock_inv_step Hwall s a s' Hs Hstep).
Qed.

(** X16: if the readings of [time.time()] never go backwards, then along
    any run of the program a step other than a new game or a mode change
    never gives time back to either side, and leaves the time of the side
    not to move exactly as it was: only the side to move is ever charged,
    and only when a move is made. *)
Theorem session_clock_only_charges_mover (Hwall : nondecreasing wall) s a s' :
  reachable s -> step s a = Ok s' -> is_reset a = false ->
  (forall side,
     (Clock.remaining (game_clock s') side <= Clock.remaining (game_clock s) side)%Q) /\
  Clock.remaining (game_clock s') (negb (turn (board s)))
  = Clock.remaining (game_clock s) (negb (turn (board s))).
Proof.
  intros Hr Hstep Hnr.
  pose proof (reachable_clock_inv Hwall s Hr) as Hinv. unfold ChessGUI.clock_inv in Hinv.
  assert (Hsame : forall s2 : @t Board, game_clock s2 = game_clock s ->
            (forall side,
               (Clock.remaining (game_clock s2) side
                <= Clock.remaining (game_clock s) side)%Q) /\
            Clock.remaining (game_clock s2) (negb (turn (board s)))
            = Clock.remaining (game_clock s) (negb (turn (board s)))).
  { intros s2 ->. split; [intros side; lra | reflexivity]. }
  assert (Hmoved : forall m s2,
            make_move engine_ok wall s m = Ok s2 ->
            (forall side,
               (Clock.remaining (game_clock s2) side
                <= Clock.remaining (game_clock s) side)%Q) /\
            Clock.remaining (game_clock s2) (negb (turn (board s)))
            = Clock.remaining (game_clock s) (negb (turn (board s)))).
  { intros m s2 Hmk.
    destruct (make_move_inv engine_ok wall _ _ _ Hmk)
      as (x & -> & _ & _ & _ & _ & _ & _ & _ & _ & Hc & _).
    destruct (maybe_start_frame engine_ok x) as (_ & _ & Hc' & _).
    cbn zeta in Hc'. rewrite Hc', Hc.
    assert (Hne : negb (turn (board s)) <> turn (board s))
      by (destruct (turn (board s)); discriminate).
    destruct (Mode_eqb (mode s) ANALYSIS);
      rewrite ?remaining_start_turn;
      (split; [intros side; rewrite ?remaining_start_turn;
               now apply stop_turn_le
              | now apply remaining_stop_turn_other]). }
  apply step_transition in Hstep.
  destruct Hstep;
    first
      [ discriminate
      | apply Hsame; reflexivity
      | match goal with
        | H : make_move _ _ _ _ = Ok _ |- _ => exact (Hmoved _ _ H)
        end
      | apply Hsame; unfold worker_read, worker_write, worker_exit;
        destruct (engine_thread s) as [[]|]; reflexivity ].
Qed.

End ControllerInvariants.

(** ** Clicks and squares *)

Lemma square_rank_div sq : square_rank sq = sq / 8.
Proof. unfold square_rank. now rewrite Z.shiftr_div_pow2 by lia. Qed.

Lemma square_file_mod sq : square_file sq = sq mod 8.
Proof.
  unfold square_file. change 7 with (Z.ones 3). now rewrite Z.land_ones by lia.
Qed.

(** X17: the board is drawn and clicked consistently.  A click anywhere
    inside the 80x80 square that [draw_board] paints for [sq] is decoded by
    [on_click] as [sq]; and every click inside the board decodes to one of
    the 64 squares, the one whose painted square contains the pixel. *)
Theorem click_decodes_drawn_square :
  (forall sq dx dy,
     0 <= sq < 64 -> 0 <= dx < SQUARE_SIZE -> 0 <= dy < SQUARE_SIZE ->
     let pos := (fst (ChessGUI.square_origin sq) + dx,
                 snd (ChessGUI.square_origin sq) + dy) in
     ChessGUI.clicked_square pos = sq /\
     0 <= fst pos < BOARD_SIZE /\ 0 <= snd pos < BOARD_SIZE) /\
  (forall x y,
     0 <= x < BOARD_SIZE -> 0 <= y < BOARD_SIZE ->
     let sq := ChessGUI.clicked_square (x, y) in
     0 <= sq < 64 /\
     fst (ChessGUI.square_origin sq) <= x
     < fst (ChessGUI.square_origin sq) + SQUARE_SIZE /\
     snd (ChessGUI.square_origin sq) <= y
     < snd (ChessGUI.square_origin sq) + SQUARE_SIZE).
Proof.
  unfold ChessGUI.clicked_square, ChessGUI.square_origin, square,
    BOARD_SIZE, SQUARE_SIZE.
  split.
  - intros sq dx dy Hsq Hdx Hdy. cbn [fst snd].
    rewrite square_rank_div, square_file_mod.
    pose proof (Z.div_mod sq 8 ltac:(lia)) as Hdm.
    pose proof (Z.mod_pos_bound sq 8 ltac:(lia)) as Hm.
    assert (Hr : 0 <= sq / 8 < 8)
      by (split; [apply Z.div_pos | apply Z.div_lt_upper_bound]; lia).
    set (f := sq mod 8) in *. set (r := sq / 8) in *.
    assert (Hx : (f * 80 + dx) / 80 = f)
      by (symmetry; apply (Z.div_unique_pos _ 80 f dx); lia).
    assert (Hy : ((7 - r) * 80 + dy) / 80 = 7 - r)
      by (symmetry; apply (Z.div_unique_pos _ 80 (7 - r) dy); lia).
    rewrite Hx, Hy. repeat split; lia.
  - intros x y Hx Hy. cbn [fst snd].
    assert (Hf : 0 <= x / 80 < 8)
      by (split; [apply Z.div_pos | apply Z.div_lt_upper_bound]; lia).
    assert (Hg : 0 <= y / 80 < 8)
      by (split; [apply Z.div_pos | apply Z.div_lt_upper_bound]; lia).
    pose proof (Z.div_mod x 80 ltac:(lia)) as Hxd.
    pose proof (Z.mod_pos_bound x 80 ltac:(lia)) as Hxm.
    pose proof (Z.div_mod y 80 ltac:(lia)) as Hyd.
    pose proof (Z.mod_pos_bound y 80 ltac:(lia)) as Hym.
    set (f := x / 80) in *. set (g := y / 80) in *.
    rewrite square_rank_div, square_file_mod.
    assert (Hq : ((7 - g) * 8 + f) / 8 = 7 - g)
      by (symmetry; apply (Z.div_unique_pos _ 8 (7 - g) f); lia).
    assert (Hm : ((7 - g) * 8 + f) mod 8 = f)
      by (symmetry; apply (Z.mod_unique_pos _ 8 (7 - g) f); lia).
    rewrite Hq, Hm. repeat split; lia.
Qed.

(** The middle of e4. *)
Lemma click_decodes_drawn_square_witness :
  0 <= 28 < 64 /\ 0 <= 40 < SQUARE_SIZE /\
  ChessGUI.clicked_square
    (fst (ChessGUI.square_origin 28) + 40, snd (ChessGUI.square_origin 28) + 40)
  = 28.
Proof.
  assert (H1 : 0 <= 28 < 64) by lia.
  assert (H2 : 0 <= 40 < SQUARE_SIZE) by (unfold SQUARE_SIZE; lia).
  split; [exact H1|]. split; [exact H2|].
  exact (proj1 (proj1 click_decodes_drawn_square 28 40 40 H1 H2 H2)).
Defined.

(** ** The further properties on concrete games *)

Section MoreGames.

Import ChessGUI MiniChess.

Lemma MiniChess_turn_spec : TurnSpec rules.
Proof.
  split; [reflexivity|].
  intros p m. cbn. unfold push_move. destruct (at_ p (from_square m)); reflexivity.
Qed.

Lemma seconds_nondecreasing : nondecreasing seconds.
Proof.
  intros k. unfold seconds. rewrite <- Zle_Qle. lia.
Qed.

Lemma reachable_after_click_e2 :
  reachable true book_engine seconds (after [click e2]).
Proof. exists [click e2]. vm_compute. reflexivity. Qed.

Lemma reachable_after_e2e4 :
  reachable true book_engine seconds (after [click e2; click e4]).
Proof. exists [click e2; click e4]. vm_compute. reflexivity. Qed.

(** X8 with e2 selected on the starting position: the pawn's two squares
    are highlighted. *)
Lemma selection_is_coherent_witness :
  let s := after [click e2] in
  reachable true book_engine seconds s /\
  selected_sq s = Some e2 /\
  piece_at (board s) e2 <> None /\
  engine_to_move (turn (board s)) (mode s) = false /\
  valid_dest_sqs s = [20; 28].
Proof.
  cbn zeta.
  pose proof (selection_is_coherent true book_engine seconds
                (after [click e2]) reachable_after_click_e2) as H.
  assert (Hs : selected_sq (after [click e2]) = Some e2) by (vm_compute; reflexivity).
  rewrite Hs in H. destruct H as (H1 & H2 & _).
  split; [exact reachable_after_click_e2|]. split; [exact Hs|].
  split; [exact H1|]. split; [exact H2|].
  vm_compute. reflexivity.
Defined.

(** X9: the click that completes e2-e4 returns normally. *)
Lemma input_never_raises_witness :
  reachable true book_engine seconds (after [click e2]) /\
  in_window (MOUSEBUTTONDOWN 1 (pixel e4)) /\
  exists s',
    handle_event true seconds (after [click e2])
      (MOUSEBUTTONDOWN 1 (pixel e4)) = Ok s'.
Proof.
  assert (Hw : in_window (MOUSEBUTTONDOWN 1 (pixel e4)))
    by (cbv; split; discriminate).
  split; [exact reachable_after_click_e2|]. split; [exact Hw|].
  exact (proj1 (input_never_raises true book_engine seconds (after [click e2])
                  (MOUSEBUTTONDOWN 1 (pixel e4)) reachable_after_click_e2) Hw).
Defined.

(** X10: the thread started by e2-e4 in mode H-E is for Black, the
    engine's side. *)
Lemma thread_started_only_for_engine_turn_witness :
  let s := after [click e2] in
  let s' := after [click e2; click e4] in
  ChessGUI.step true book_engine seconds s (click e4) = Ok s' /\
  engine_thread s = None /\ engine_thread s' = Some Started /\
  engine_to_move (turn (board s')) (mode s') = true /\
  mode s' <> ANALYSIS.
Proof.
  cbn zeta.
  assert (H1 : ChessGUI.step true book_engine seconds (after [click e2]) (click e4)
               = Ok (after [click e2; click e4])) by (vm_compute; reflexivity).
  assert (H2 : engine_thread (after [click e2]) = None) by (vm_compute; reflexivity).
  assert (H3 : engine_thread (after [click e2; click e4]) = Some Started)
    by (vm_compute; reflexivity).
  destruct (thread_started_only_for_engine_turn true book_engine seconds
              _ _ _ _ H1 H2 H3) as (_ & _ & _ & _ & H4 & H5 & _).
  auto.
Defined.

(** X11: the thread started by e2-e4 survives the new game. *)
Lemma live_thread_is_left_alone_witness :
  let s := after [click e2; click e4] in
  let s' := after [click e2; click e4; press K_n] in
  ChessGUI.step true book_engine seconds s (press K_n) = Ok s' /\
  engine_thread s = Some Started /\ engine_thread s' = Some Started.
Proof.
  cbn zeta.
  assert (H1 : ChessGUI.step true book_engine seconds
                 (after [click e2; click e4]) (press K_n)
               = Ok (after [click e2; click e4; press K_n]))
    by (vm_compute; reflexivity).
  assert (H2 : engine_thread (after [click e2; click e4]) = Some Started)
    by (vm_compute; reflexivity).
  split; [exact H1|]. split; [exact H2|].
  exact (live_thread_is_left_alone true book_engine seconds _ _ _ _ H1 eq_refl H2).
Defined.

(** X12: without an engine, after e2-e4 in mode H-E nothing is pending and
    no thread exists, although it is Black's turn. *)
Lemma without_engine_nothing_is_pending_witness :
  let s := after_without_engine [click e2; click e4] in
  reachable false book_engine seconds s /\
  turn (board s) = BLACK /\
  engine_thread s = None /\ pending_engine_move s = None.
Proof.
  cbn zeta.
  assert (Hr : reachable false book_engine seconds
                 (after_without_engine [click e2; click e4])).
  { exists [click e2; click e4]. vm_compute. reflexivity. }
  destruct (without_engine_nothing_is_pending false book_engine seconds
              _ eq_refl Hr) as (H1 & H2 & _).
  split; [exact Hr|]. split; [vm_compute; reflexivity|]. auto.
Defined.

(** X15 after 1. e4: one row, Black awaited. *)
Lemma log_rows_follow_the_game_witness :
  let s := after [click e2; click e4] in
  TurnSpec rules /\ reachable true book_engine seconds s /\
  ScrollableMoveLog.waiting_for_black (move_log s) = negb (turn (board s)) /\
  ScrollableMoveLog.current_move_number (move_log s)
  = Z.of_nat (List.length (ScrollableMoveLog.moves (move_log s)))
    + (if turn (board s) then 1 else 0).
Proof.
  cbn zeta.
  destruct (log_rows_follow_the_game true book_engine seconds MiniChess_turn_spec
              _ reachable_after_e2e4) as (_ & H2 & H3 & _).
  split; [exact MiniChess_turn_spec|]. split; [exact reachable_after_e2e4|].
  split; [exact H3 | exact H2].
Defined.

(** X16 on the move e2-e4: White pays, Black does not. *)
Lemma session_clock_only_charges_mover_witness :
  let s := after [click e2] in
  let s' := after [click e2; click e4] in
  nondecreasing seconds /\ reachable true book_engine seconds s /\
  ChessGUI.step true book_engine seconds s (click e4) = Ok s' /\
  Clock.remaining (game_clock s') BLACK = Clock.remaining (game_clock s) BLACK /\
  (Clock.remaining (game_clock s') WHITE <= Clock.remaining (game_clock s) WHITE)%Q.
Proof.
  cbn zeta.
  assert (H1 : ChessGUI.step true book_engine seconds (after [click e2]) (click e4)
               = Ok (after [click e2; click e4])) by (vm_compute; reflexivity).
  destruct (session_clock_only_charges_mover true book_engine seconds
              seconds_nondecreasing _ _ _ reachable_after_click_e2 H1 eq_refl)
    as [Hle Heq].
  split; [exact seconds_nondecreasing|].
  split; [exact reachable_after_click_e2|]. split; [exact H1|].
  split; [|exact (Hle WHITE)].
  replace BLACK with (negb (turn (board (after [click e2]))))
    by (vm_compute; reflexivity).
  exact Heq.
Defined.

End MoreGames.

(** ** Reading the engine's reply *)

Section EngineReply.

Import EngineTest.
Open Scope string_scope.

Lemma split_space c rest : isspace c = true -> split (String c rest) = split rest.
Proof. intros H. cbn [split]. now rewrite H. Qed.

Lemma split_starts_with_space s :
  starts_with_space s -> forall c, isspace c = false ->
  split (String c s) = String c "" :: split s.
Proof.
  intros Hs c Hc. cbn [split]. rewrite Hc.
  destruct s as [|c' s']; [reflexivity|].
  cbn in Hs. now rewrite Hs.
Qed.

Lemma split_nonspace c rest :
  isspace c = false ->
  split (String c rest)
  = match rest with
    | EmptyString => [String c ""]
    | String c' _ =>
        if isspace c' then String c "" :: split rest
        else match split rest with
             | w :: ws => String c w :: ws
             | [] => [String c ""]
             end
    end.
Proof. intros H. cbn [split]. now rewrite H. Qed.

(** A word followed by the end of the line or by whitespace is cut off as
    it stands. *)
Lemma split_word_first w : forall tail,
  is_word w -> starts_with_space tail ->
  split (w ++ tail) = w :: split tail.
Proof.
  induction w as [|a w IH]; intros tail [Hne Hns] Htail; [congruence|].
  cbn [no_space] in Hns. apply andb_true_iff in Hns. destruct Hns as [Ha Hw].
  apply negb_true_iff in Ha.
  destruct w as [|b w'].
  - cbn [append]. now apply split_starts_with_space.
  - assert (Hb : isspace b = false).
    { cbn [no_space] in Hw. apply andb_true_iff in Hw.
      now apply negb_true_iff. }
    assert (Hword : is_word (String b w')) by (split; [discriminate | exact Hw]).
    specialize (IH tail Hword Htail).
    change (String a (String b w') ++ tail)
      with (String a (String b w' ++ tail)).
    change (String b w' ++ tail) with (String b (w' ++ tail)) in *.
    rewrite (split_nonspace a _ Ha). lazy beta iota.
    rewrite Hb, IH. reflexivity.
Qed.

Lemma split_words s : Forall is_word (split s).
Proof.
  induction s as [|c rest IH]; [constructor|].
  cbn [split]. destruct (isspace c) eqn:Hc; [exact IH|].
  assert (Hone : is_word (String c ""))
    by (split; [discriminate | cbn; now rewrite Hc]).
  destruct rest as [|c' r]; [constructor; [exact Hone | constructor]|].
  destruct (isspace c').
  - constructor; assumption.
  - destruct (split (String c' r)) as [|w ws];
      [constructor; [exact Hone | constructor]|].
    inversion IH as [|? ? [Hne Hns] Hrest]; subst.
    constructor; [|exact Hrest].
    split; [discriminate | cbn; now rewrite Hc, Hns].
Qed.

End EngineReply.

(** X18: for any engine output in which the lines before the first
    ["bestmove <move>"] line do not start with "bestmove", the scripts'
    search returns exactly [<move>], whatever follows the move on its line
    (such as ["ponder ..."]) and whatever lines come after. *)
Theorem best_move_is_extracted (before after : list string) (move tail : string) :
  Forall (fun resp => EngineTest.is_bestmove resp = false) before ->
  EngineTest.is_word move -> EngineTest.starts_with_space tail ->
  EngineTest.best_move_of
    (before ++ ("bestmove " ++ move ++ tail)%string :: after)
  = Some move.
Proof.
  intros Hbefore Hmove Htail.
  induction Hbefore as [|resp rest Hresp _ IH].
  - cbn [app EngineTest.best_move_of].
    replace (EngineTest.is_bestmove ("bestmove " ++ move ++ tail)) with true
      by reflexivity.
    change ("bestmove " ++ move ++ tail)%string
      with ("bestmove" ++ String Ascii.Space (move ++ tail))%string.
    rewrite (split_word_first "bestmove" (String Ascii.Space (move ++ tail)%string));
      [|split; [discriminate | reflexivity] | reflexivity].
    rewrite split_space by reflexivity.
    now rewrite (split_word_first move tail Hmove Htail).
  - cbn [app EngineTest.best_move_of]. now rewrite Hresp.
Qed.

(** The reply of an engine after [go movetime 1000]. *)
Lemma best_move_is_extracted_witness :
  EngineTest.best_move_of
    ["info depth 1 score cp 20"; "info depth 2 score cp 15";
     "bestmove e7e5 ponder g1f3"]%string
  = Some "e7e5"%string.
Proof.
  apply (best_move_is_extracted
           ["info depth 1 score cp 20"; "info depth 2 score cp 15"]%string
           [] "e7e5" " ponder g1f3").
  - repeat constructor.
  - split; [discriminate | reflexivity].
  - reflexivity.
Defined.

(** X19: what the search returns is always a word, never an empty string
    and never containing whitespace; and it returns nothing exactly when no
    line both starts with "bestmove" and has a second word, so a bare
    ["bestmove"] line is passed over. *)
Theorem best_move_is_a_word (responses : list string) :
  match EngineTest.best_move_of responses with
  | Some m =>
      EngineTest.is_word m /\
      exists resp, In resp responses /\ EngineTest.is_bestmove resp = true /\
                   nth_error (EngineTest.split resp) 1 = Some m
  | None =>
      forall resp, In resp responses ->
        EngineTest.is_bestmove resp = false \/
        (List.length (EngineTest.split resp) < 2)%nat
  end.
Proof.
  induction responses as [|resp rest IH]; [intros resp []|].
  cbn [EngineTest.best_move_of].
  destruct (EngineTest.is_bestmove resp) eqn:Hb.
  - pose proof (split_words resp) as Hw.
    destruct (EngineTest.split resp) as [|w [|m ws]] eqn:Hs.
    + destruct (EngineTest.best_move_of rest) as [m|].
      * destruct IH as (Hm & r & Hin & Hr). split; [exact Hm|].
        exists r. split; [now right | exact Hr].
      * intros r [<- | Hin]; [right; rewrite Hs; cbn; lia | now apply IH].
    + destruct (EngineTest.best_move_of rest) as [m|].
      * destruct IH as (Hm & r & Hin & Hr). split; [exact Hm|].
        exists r. split; [now right | exact Hr].
      * intros r [<- | Hin]; [right; rewrite Hs; cbn; lia | now apply IH].
    + split.
      * inversion Hw as [|? ? _ Hw']; subst. now inversion Hw'.
      * exists resp. split; [now left|]. split; [exact Hb|].
        rewrite Hs. reflexivity.
  - destruct (EngineTest.best_move_of rest) as [m|].
    + destruct IH as (Hm & r & Hin & Hr). split; [exact Hm|].
      exists r. split; [now right | exact Hr].
    + intros r [<- | Hin]; [now left | now apply IH].
Qed.

(** ** The pending-move slot *)

Section PendingSlot.

Import ChessGUI.

Context {Board : Type} {R : Rules Board}.
Variable engine_ok : bool.
Variable play : Board -> option Move.
Variable wall : nat -> Q.

#[local] Abbreviation step := (step engine_ok play wall).
#[local] Abbreviation reachable := (reachable engine_ok play wall).
#[local] Abbreviation pending_from_engine := (pending_from_engine engine_ok play).

(** X20: [handle_engine] applies a pending move at most once: a second call
    right after a successful one finds nothing to apply and changes
    nothing. *)
Theorem engine_move_applied_once s s' :
  step s Tick = Ok s' -> step s' Tick = Ok s'.
Proof.
  cbn [ChessGUI.step]. unfold ChessGUI.handle_engine.
  destruct (pending_engine_move s) as [m|] eqn:Hp.
  - destruct (Move_bool m) eqn:Hb.
    + destruct (make_move engine_ok wall s m) as [s2|]; [|discriminate].
      intros [= <-]. reflexivity.
    + intros [= <-]. now rewrite Hp, Hb.
  - intros [= <-]. now rewrite Hp.
Qed.

Lemma pending_from_engine_step s a s' :
  pending_from_engine s -> step s a = Ok s' -> pending_from_engine s'.
Proof.
  intros Hinv Hstep.
  assert (Hkeep : forall x : @t Board,
            pending_engine_move x = pending_engine_move s ->
            pending_from_engine (maybe_start_engine_think engine_ok x)).
  { intros x Hx m Hm.
    destruct (maybe_start_frame engine_ok x) as (_ & _ & _ & _ & _ & _ & _ & Hp & _).
    cbn zeta in Hp. apply Hinv. congruence. }
  assert (Hnone : forall x : @t Board,
            pending_engine_move x = None ->
            pending_from_engine (maybe_start_engine_think engine_ok x)).
  { intros x Hx m Hm.
    destruct (maybe_start_frame engine_ok x) as (_ & _ & _ & _ & _ & _ & _ & Hp & _).
    cbn zeta in Hp. congruence. }
  apply step_transition in Hstep.
  destruct Hstep;
    first
      [ exact Hinv
      | destruct (new_game_inv engine_ok wall s)
          as (x & -> & _ & _ & _ & Hx & _); now apply Hnone
      | destruct (change_mode_inv engine_ok wall s)
          as (x & -> & _ & _ & _ & Hx & _); now apply Hnone
      | match goal with
        | H : make_move _ _ _ _ = Ok _ |- pending_from_engine (set_pending_engine_move _ _) =>
            intros m' Hm'; discriminate
        | H : make_move _ _ _ _ = Ok _ |- _ =>
            destruct (make_move_inv engine_ok wall _ _ _ H)
              as (x & -> & _ & _ & _ & _ & Hx & _); now apply Hkeep
        end
      | unfold worker_read, worker_exit;
        destruct (engine_thread s) as [[]|]; exact Hinv
      | idtac ].
  unfold worker_write. destruct (engine_thread s) as [[|b|]|]; try exact Hinv.
  intros m Hm. cbn in Hm. unfold best_move in Hm.
  destruct engine_ok; cbn in Hm; [|discriminate].
  split; [reflexivity|]. now exists b.
Qed.

(** X21: in every reachable state the pending slot is empty or holds a
    move the engine answered for some position; nothing the user does puts
    a move there. *)
Theorem pending_move_comes_from_engine s m :
  reachable s -> pending_engine_move s = Some m ->
  engine_ok = true /\ exists b, play b = Some m.
Proof.
  intros Hr. revert m.
  change (pending_from_engine s). revert s Hr.
  apply reachable_invariant.
  - intros m Hm. unfold ChessGUI.init in Hm.
    match type of Hm with
    | context [maybe_start_engine_think _ ?x] =>
        destruct (maybe_start_frame engine_ok x) as (_ & _ & _ & _ & _ & _ & _ & Hp & _)
    end.
    cbn zeta in Hp. rewrite Hp in Hm. discriminate.
  - exact pending_from_engine_step.
Qed.

End PendingSlot.

Section PendingGames.

Import ChessGUI MiniChess.

(** X20: the engine's reply to 1. e4 is applied by the first tick only. *)
Lemma engine_move_applied_once_witness :
  let s := after [click e2; click e4; WorkerRead; WorkerWrite; WorkerExit] in
  let s' := after [click e2; click e4; WorkerRead; WorkerWrite; WorkerExit; Tick] in
  ChessGUI.step true book_engine seconds s Tick = Ok s' /\
  last_move s' = Some e7e5 /\
  ChessGUI.step true book_engine seconds s' Tick = Ok s'.
Proof.
  cbn zeta.
  assert (H : ChessGUI.step true book_engine seconds
                (after [click e2; click e4; WorkerRead; WorkerWrite; WorkerExit]) Tick
              = Ok (after [click e2; click e4; WorkerRead; WorkerWrite; WorkerExit; Tick]))
    by (vm_compute; reflexivity).
  split; [exact H|]. split; [vm_compute; reflexivity|].
  exact (engine_move_applied_once true book_engine seconds _ _ H).
Defined.

(** X21: the move pending after the thread has written. *)
Lemma pending_move_comes_from_engine_witness :
  let s := after [click e2; click e4; WorkerRead; WorkerWrite] in
  reachable true book_engine seconds s /\
  pending_engine_move s = Some e7e5 /\
  exists b, book_engine b = Some e7e5.
Proof.
  cbn zeta.
  assert (Hr : reachable true book_engine seconds
                 (after [click e2; click e4; WorkerRead; WorkerWrite])).
  { exists [click e2; click e4; WorkerRead; WorkerWrite]. vm_compute. reflexivity. }
  assert (Hp : pending_engine_move
                 (after [click e2; click e4; WorkerRead; WorkerWrite]) = Some e7e5)
    by (vm_compute; reflexivity).
  split; [exact Hr|]. split; [exact Hp|].
  exact (proj2 (pending_move_comes_from_engine true book_engine seconds _ _ Hr Hp)).
Defined.

End PendingGames.

(** ** The position the background thread searches *)

Section WorkerBinding.

Import ChessGUI.

Context {Board : Type} {R : Rules Board}.
Variable engine_ok : bool.
Variable play : Board -> option Move.
Variable wall : nat -> Q.

#[local] Abbreviation step := (step engine_ok play wall).
#[local] Abbreviation run := (run engine_ok play wall).
#[local] Abbreviation worker_write := (worker_write engine_ok play).
#[local] Abbreviation best_move := (best_move engine_ok play).




End WorkerBinding.

Section WorkerGames.

Import ChessGUI MiniChess.


End WorkerGames.

(** ** The clock when the wall clock steps back *)

(** C9 (as stated, refuted): [stop_turn] subtracts [time.time()] readings,
    and those can step back.  White uses up its 300 s and the clock is
    flagged; the next turn starts at time 400 and is stopped at a reading
    of 395: the interval is -5 s, White is given 5 s back and [flag()] is
    false again. *)
Example clock_stepping_back_unflags :
  let c := Clock.run (Clock.init START_TIME 0) [Clock.StopTurn WHITE 300] in
  let c' := Clock.run c [Clock.StartTurn 400; Clock.StopTurn WHITE 395] in
  Clock.flag c = true /\ Clock.flag c' = false /\
  (Clock.remaining c WHITE == 0)%Q /\ (Clock.remaining c' WHITE == 5)%Q /\
  (Clock.remaining c WHITE < Clock.remaining c' WHITE)%Q.
Proof. cbv. repeat split; reflexivity. Qed.
